(** * HotFlip word-level attack (allennlp/interpret/attackers/hotflip.py)

    A shallow embedding of the [Hotflip] attacker: the candidate selector
    [_first_order_taylor], the construction of the embedding matrix and the
    two attack loops [attack_from_json] and [targeted_attack_from_json].

    Modelling conventions.
    - Tensor entries are exact integers ([Z]); a score array that may hold
      [-numpy.inf] is a list of [score].  Rounding, overflow and NaN of the
      float32 arithmetic are not represented, and the order in which
      [torch.einsum] sums is not fixed by the source: nothing below is
      claimed about which of two computed scores is the larger one.
    - A Python exception is a value [Raise e]; the calls into the predictor,
      the vocabulary and [utils] are the fields of the class [Predictor] and
      are assumed to return.
    - The effects that matter to callers (a forward pass through the
      embedding stage, a gradient computation, an in-place token
      substitution, the cached embedding matrix) live in an explicit
      [world] threaded by a small state-and-exception monad.
    - The two attack methods are the same text up to the sign, the initial
      mask, the stopping check and the way the instances are obtained; they
      share one loop, parameterised by a [mode].
    - [while True] is a loop with fuel; the fuel given to it is shown to be
      more than it can use.
    - [current_tokens] aliases the token list that the loop updates in
      place, so [final] holds the tokens as they are after the attack;
      [original_tokens] is a deep copy taken before it. *)

From Stdlib Require Import ZArith Lia Ascii Sorted.
From stdpp Require Import base numbers list strings gmap.

(** ** Exceptions *)

Inductive exn : Type :=
  | ValueError
  | IndexError
  | KeyError
  | RuntimeError
  | AttributeError
  | UnboundLocalError.

Inductive except (A : Type) : Type :=
  | Ok (a : A)
  | Raise (e : exn).
Arguments Ok {A} a.
Arguments Raise {A} e.

#[global] Instance except_ret : MRet except := fun A a => Ok a.

#[global] Instance except_bind : MBind except := fun A B f m =>
  match m with
  | Ok a => f a
  | Raise e => Raise e
  end.

(** ** Scalars, vectors, score arrays *)

Abbreviation vector := (list Z).
Abbreviation matrix := (list (list Z)).

(** [numpy.dot] / the contracted index [j] of [torch.einsum]. *)
Definition dot (u v : vector) : Z := foldr Z.add 0%Z (zip_with Z.mul u v).

Inductive score : Type :=
  | NegInf
  | Fin (x : Z).

Definition score_ltb (a b : score) : bool :=
  match a, b with
  | NegInf, NegInf => false
  | NegInf, Fin _ => true
  | Fin _, NegInf => false
  | Fin x, Fin y => (x <? y)%Z
  end.

(** [numpy.argmax]: a left-to-right scan that replaces the running best only
    by a strictly larger entry, so the first maximum wins; an empty array
    raises [ValueError]. *)
Fixpoint argmax_from (best_i : nat) (best : score) (i : nat) (l : list score) : nat :=
  match l with
  | [] => best_i
  | x :: l' =>
      if score_ltb best x then argmax_from i x (S i) l'
      else argmax_from best_i best (S i) l'
  end.

Definition argmax (l : list score) : except nat :=
  match l with
  | [] => Raise ValueError
  | x :: l' => Ok (argmax_from 0 x 1 l')
  end.

(** [r] is the position of the first maximum of [l]. *)
Definition is_first_max (l : list score) (r : nat) : Prop :=
  exists v, l !! r = Some v /\
    (forall k w, l !! k = Some w -> score_ltb v w = false) /\
    (forall k w, k < r -> l !! k = Some w -> score_ltb w v = true).

(** ** Vocabulary of the attack namespace

    [vocab._index_to_token[namespace]] with dense ids [0 .. N-1]: the id of a
    token is its position in the list. *)

Definition vocabulary := list string.

Definition get_vocab_size (vocab : vocabulary) : nat := length vocab.

Definition is_alnum_ascii (c : ascii) : bool :=
  let n := nat_of_ascii c in
  ((48 <=? n) && (n <=? 57)) || ((65 <=? n) && (n <=? 90)) || ((97 <=? n) && (n <=? 122)).

Fixpoint all_alnum (s : string) : bool :=
  match s with
  | EmptyString => true
  | String c s' => is_alnum_ascii c && all_alnum s'
  end.

(** What [str.isalnum] answers on a string of ASCII characters: every
    character is a letter or a digit and there is at least one character.
    Python's method also accepts the letters and digits of the rest of
    Unicode; it is a field of [Predictor] below, and this function stands in
    for it only on the ASCII vocabularies of the examples. *)
Definition ascii_isalnum (s : string) : bool :=
  match s with
  | EmptyString => false
  | String _ _ => all_alnum s
  end.

(** [[index for index, x in enumerate(xs) if p(x)]], counting from [i]: the
    shape of the loop of [__init__] and of the two pre-masking loops. *)
Fixpoint positions_where {A} (p : A -> bool) (i : nat) (xs : list A) : list nat :=
  match xs with
  | [] => []
  | x :: xs' =>
      if p x then i :: positions_where p (S i) xs'
      else positions_where p (S i) xs'
  end.

(** The loop of [__init__]: ids, in increasing order, whose token is not
    alphanumeric; [isalnum] is Python's [str.isalnum]. *)
Definition invalid_replacement_indices (isalnum : string -> bool)
    (vocab : vocabulary) : list nat :=
  positions_where (fun tok => negb (isalnum tok)) 0 vocab.

(** ** The candidate selector *)

(** [neg_dir_dot_grad[:,:,invalid] = -numpy.inf]; an id outside the array
    raises [IndexError]. *)
Definition mask_invalid (invalid : list nat) (d : list score) : except (list score) :=
  if forallb (fun i => i <? length d) invalid
  then Ok (foldl (fun acc i => <[i := NegInf]> acc) d invalid)
  else Raise IndexError.

(** Lines 302-329.  [torch.nn.functional.embedding] on a token id outside
    the matrix, and an [einsum] over rows whose width is not that of the
    gradient, fail inside torch; the class of that error depends on the
    version of torch and is written [RuntimeError] here. *)
Definition _first_order_taylor (invalid : list nat) (grad : vector)
    (embedding_matrix : matrix) (token_idx : nat) (sign : Z) : except nat :=
  match embedding_matrix !! token_idx with
  | None => Raise RuntimeError
  | Some word_embeds =>
      if forallb (fun row => length row =? length grad) embedding_matrix then
        let new_embed_dot_grad := map (dot grad) embedding_matrix in
        let prev_embed_dot_grad := dot grad word_embeds in
        let neg_dir_dot_grad :=
          map (fun n => Fin (sign * (prev_embed_dot_grad - n))) new_embed_dot_grad in
        masked ← mask_invalid invalid neg_dir_dot_grad;
        argmax masked
      else Raise RuntimeError
  end.

(** The selection rule in the words of the specification: the score of
    candidate [k] is [s * (g.e - g.E[k])], or minus infinity when [k] is an
    invalid replacement. *)
Definition taylor_scores (invalid : list nat) (g : vector) (E : matrix)
    (e : vector) (s : Z) : list score :=
  imap (fun k Ek => if decide (k ∈ invalid) then NegInf
                    else Fin (s * (dot g e - dot g Ek))) E.

(** ** Positions and masks of the attack loop *)

(** A mention is a pair [(start, end)], both ends included; a cluster is a
    tuple of mentions. *)
Definition mention := (nat * nat)%type.
Definition cluster := list mention.

(** [grads_magnitude[index] = -1]; a position outside the list raises
    [IndexError]. *)
Fixpoint mask_positions (mag : list score) (idxs : list nat) : except (list score) :=
  match idxs with
  | [] => Ok mag
  | index :: idxs' =>
      if index <? length mag
      then mask_positions (<[index := Fin (-1)]> mag) idxs'
      else Raise IndexError
  end.

(** The positions visited by
    [for clust in clusters: for mention in clust: for index in range(mention[0], mention[1]+1)]. *)
Definition cluster_positions (cl : list cluster) : list nat :=
  flat_map (fun clust =>
    flat_map (fun m : mention => seq (fst m) (S (snd m) - fst m)) clust) cl.

Definition covered (cl : option (list cluster)) (i : nat) : Prop :=
  match cl with
  | Some c => i ∈ cluster_positions c
  | None => False
  end.

Definition score_eqb (a b : score) : bool :=
  match a, b with
  | NegInf, NegInf => true
  | Fin x, Fin y => (x =? y)%Z
  | _, _ => false
  end.

(** Lines 136-152 (and 247-263): the priority of a position is the squared
    norm of its gradient, a masked position gets [-1], and the position of
    the first maximum is chosen; [None] is the [break] taken when that
    maximum is [-1]. *)
Definition select_position (grad : list vector) (clusters : option (list cluster))
    (flipped : list nat) : except (option nat) :=
  let grads_magnitude := map (fun g => Fin (dot g g)) grad in
  m1 ← mask_positions grads_magnitude flipped;
  m2 ← match clusters with
       | Some cl => mask_positions m1 (cluster_positions cl)
       | None => Ok m1
       end;
  index_of_token_to_flip ← argmax m2;
  match m2 !! index_of_token_to_flip with
  | Some v => if score_eqb v (Fin (-1)) then Ok None else Ok (Some index_of_token_to_flip)
  | None => Raise IndexError
  end.

(** [set(tuple(l) for l in a) != set(tuple(l) for l in b)]. *)
Definition clusters_differ (a b : list cluster) : bool :=
  bool_decide (list_to_set (C := gset cluster) a ≠ list_to_set b).

Inductive mode : Type :=
  | Untargeted
  | Targeted.

(** The [sign] argument: the literal [-1] of [attack_from_json], the local
    [sign = 1.0] of [targeted_attack_from_json]. *)
Definition mode_sign (m : mode) : Z :=
  match m with
  | Untargeted => (-1)%Z
  | Targeted => 1%Z
  end.

Definition default_ignore_tokens : list string :=
  ["@@NULL@@"; "."; ","; ";"; "!"; "?"]%string.

(** The initial value of [flipped].  [attack_from_json] has no [target_word]
    and always takes the ignore-list branch. *)
Definition initial_flipped (m : mode) (ignore_tokens : list string)
    (target_word : option string) (current_tokens : list string) : list nat :=
  match m, target_word with
  | Targeted, Some w =>
      positions_where (fun text => negb (String.eqb text w)) 0 current_tokens
  | _, _ =>
      positions_where (fun text => bool_decide (text ∈ ignore_tokens)) 0 current_tokens
  end.

(** The positions of a sequence of length [n] that are not in [flipped]. *)
Definition eligible (n : nat) (flipped : list nat) : list nat :=
  filter (fun i => i ∉ flipped) (seq 0 n).

(** ** The attacker object and its effects *)

(** Modelled from the spec: the [Embedding] wrapper class
    (allennlp.modules.token_embedders) is not part of the sources; section 4.1
    describes it as a wrapper holding the declared number of rows, the column
    width, the weight and the trainable flag. *)
Record Embedding : Type := mkEmbedding {
  num_embeddings : nat;
  embedding_dim : nat;
  weight : matrix;
  trainable : bool
}.

Inductive event : Type :=
  | EvForward
  | EvGradients (toks : list string)
  | EvSetToken (index : nat) (tok : string).

Definition is_set_token (ev : event) : bool :=
  match ev with
  | EvSetToken _ _ => true
  | _ => false
  end.

(** The number of in-place substitutions in a sequence of effects: the number
    of completed passes through the loop body. *)
Definition flips (evs : list event) : nat :=
  length (filter (fun ev => is_set_token ev) evs).

(** [self.token_embedding] and the effects performed so far, oldest first. *)
Record world : Type := mkWorld {
  token_embedding : option Embedding;
  trace : list event
}.

(** A computation ends in a value, in an exception, or - for the fuelled
    [while True] - runs out of fuel ([None]). *)
Definition M (A : Type) : Type := world -> option (except A) * world.

#[global] Instance M_ret : MRet M := fun A a w => (Some (Ok a), w).

#[global] Instance M_bind : MBind M := fun A B f m w =>
  match m w with
  | (Some (Ok a), w') => f a w'
  | (Some (Raise e), w') => (Some (Raise e), w')
  | (None, w') => (None, w')
  end.

Definition lift {A} (m : except A) : M A := fun w => (Some m, w).

Definition out_of_fuel {A} : M A := fun w => (None, w).

Definition emit (ev : event) : M unit := fun w =>
  (Some (Ok tt), {| token_embedding := token_embedding w; trace := trace w ++ [ev] |}).

Definition get_token_embedding : M (option Embedding) := fun w =>
  (Some (Ok (token_embedding w)), w).

Definition set_token_embedding (e : Embedding) : M unit := fun w =>
  (Some (Ok tt), {| token_embedding := Some e; trace := trace w |}).

(** [xs[i]] on a Python list. *)
Definition index_list {A} (xs : list A) (i : nat) (e : exn) : except A :=
  match xs !! i with
  | Some x => Ok x
  | None => Raise e
  end.

(** The effects performed between two worlds. *)
Definition extends (w w' : world) (evs : list event) : Prop :=
  token_embedding w' = token_embedding w /\ trace w' = trace w ++ evs.


(** ** The attack, over the interface of its collaborators *)

Inductive token_indexer : Type :=
  | SingleIdTokenIndexer
  | TokenCharactersIndexer
  | ELMoTokenCharactersIndexer
  | OtherTokenIndexer.

(** An instance: the attacked text field and, opaquely, its other fields. *)
Record Instance (Labels : Type) : Type := mkInstance {
  tokens : list string;
  labels : Labels
}.
Arguments mkInstance {Labels} tokens labels.
Arguments tokens {Labels} i.
Arguments labels {Labels} i.

(** The outputs of the model: the structured spans under the key
    [clusters], when present, and, opaquely, everything else. *)
Record Outputs (Raw : Type) : Type := mkOutputs {
  clusters : option (list cluster);
  raw : Raw
}.
Arguments mkOutputs {Raw} clusters raw.
Arguments clusters {Raw} o.
Arguments raw {Raw} o.

(** The dictionary [all_inputs] of [_construct_embedding_matrix]. *)
Record AllInputs (CharTensor ElmoIds : Type) : Type := mkAllInputs {
  in_tokens : list nat;
  in_token_characters : option CharTensor;
  in_elmo : option (list ElmoIds)
}.
Arguments mkAllInputs {CharTensor ElmoIds} in_tokens in_token_characters in_elmo.
Arguments in_tokens {CharTensor ElmoIds} a.
Arguments in_token_characters {CharTensor ElmoIds} a.
Arguments in_elmo {CharTensor ElmoIds} a.

(** [util.find_embedding_layer]: a [torch.nn] lookup table, or any other
    module, called on [all_inputs]; the module returns the block of rows of
    its [(1, N, D)] output. *)
Inductive embedding_layer (CharTensor ElmoIds : Type) : Type :=
  | LookupTable (table : matrix)
  | EmbedderStage (forward : AllInputs CharTensor ElmoIds -> matrix).
Arguments LookupTable {CharTensor ElmoIds} table.
Arguments EmbedderStage {CharTensor ElmoIds} forward.

(** What the attacker reaches through [self.predictor] (the model with its
    vocabulary and embedding layer, the token indexers of the dataset
    reader, the conversions between JSON, instances and predictions) and
    through [utils].  [Json], [Labels], [Raw], [Fields], [CharTensor] and
    [ElmoIds] are data the attacker never looks into.

    The arguments [input_field_to_attack] and [grad_input_field] are fixed:
    [tokens] is the text field they select, [get_gradients] returns the
    gradient rows stored under the chosen key, one vector per position, and
    [get_fields_to_compare] is taken at the attacked field.
    [token_to_index] is the id the indexer of the attack namespace gives a
    token, so that [_indexed_tokens[namespace]] of a freshly indexed text
    field is its image on the tokens; [namespace_indexed] says whether that
    dictionary has the key at all.  [isalnum] is Python's [str.isalnum].
    [words_output target] stands for the dictionary [{'words': [target]}]. *)
Class Predictor : Type := {
  Json : Type;
  Labels : Type;
  Raw : Type;
  Fields : Type;
  CharTensor : Type;
  ElmoIds : Type;
  vocab : vocabulary;
  token_indexers : list token_indexer;
  find_embedding_layer : embedding_layer CharTensor ElmoIds;
  characters_as_padded_tensor : list string -> nat -> CharTensor;
  elmo_tokens_to_indices : string -> ElmoIds;
  token_to_index : string -> nat;
  namespace_indexed : bool;
  isalnum : string -> bool;
  json_to_labeled_instances : Json -> list (Instance Labels);
  _json_to_instance : Json -> Instance Labels;
  predictions_to_labeled_instances : Instance Labels -> Outputs Raw -> list (Instance Labels);
  words_output : string -> Raw;
  get_gradients : Instance Labels -> list vector * Outputs Raw;
  get_fields_to_compare : Json -> Instance Labels -> Fields;
  instance_has_changed : Instance Labels -> Fields -> bool
}.

Section Hotflip.

Context {P : Predictor}.

Local Abbreviation Instance := (Instance Labels).
Local Abbreviation Outputs := (Outputs Raw).
Local Abbreviation AllInputs := (AllInputs CharTensor ElmoIds).

(** *** Construction of the embedding matrix *)

(** One pass of the loop over the token indexers (lines 60-78). *)
Definition add_indexer_input (all_tokens : list string) (ai : AllInputs)
    (ix : token_indexer) : except AllInputs :=
  match ix with
  | TokenCharactersIndexer =>
      match all_tokens with
      | [] => Raise ValueError
      | _ :: _ =>
          let max_token_length := max_list (map String.length all_tokens) in
          Ok {| in_tokens := in_tokens ai;
                in_token_characters :=
                  Some (characters_as_padded_tensor all_tokens max_token_length);
                in_elmo := in_elmo ai |}
      end
  | ELMoTokenCharactersIndexer =>
      Ok {| in_tokens := in_tokens ai;
            in_token_characters := in_token_characters ai;
            in_elmo := Some (map elmo_tokens_to_indices all_tokens) |}
  | _ => Ok ai
  end.

Fixpoint build_inputs (all_tokens : list string) (ai : AllInputs)
    (ixs : list token_indexer) : except AllInputs :=
  match ixs with
  | [] => Ok ai
  | ix :: ixs' =>
      ai' ← add_indexer_input all_tokens ai ix;
      build_inputs all_tokens ai' ixs'
  end.

Definition width (m : matrix) : nat :=
  match m with
  | [] => 0
  | row :: _ => length row
  end.

(** [t.squeeze().shape[1]] for the [(1, N, D)] output [t]: [squeeze] also
    drops [N] or [D] when it is 1, and then there is no second axis. *)
Definition squeezed_shape1 (m : matrix) : except nat :=
  if (length m =? 1) || (width m =? 1) then Raise IndexError else Ok (width m).

Definition _construct_embedding_matrix : M Embedding :=
  let all_tokens := vocab in
  let all_indices := seq 0 (length vocab) in
  all_inputs ← lift (build_inputs all_tokens
                       {| in_tokens := all_indices;
                          in_token_characters := None;
                          in_elmo := None |} token_indexers);
  match find_embedding_layer with
  | LookupTable table =>
      mret {| num_embeddings := get_vocab_size vocab;
              embedding_dim := width table;
              weight := table;
              trainable := false |}
  | EmbedderStage forward =>
      _ ← emit EvForward;
      let embedding_matrix := forward all_inputs in
      dim ← lift (squeezed_shape1 embedding_matrix);
      mret {| num_embeddings := get_vocab_size vocab;
              embedding_dim := dim;
              weight := embedding_matrix;
              trainable := false |}
  end.

Definition initialize : M unit :=
  e ← _construct_embedding_matrix;
  set_token_embedding e.

(** [if self.token_embedding is None: self.initialize()]. *)
Definition ensure_initialized : M unit :=
  o ← get_token_embedding;
  match o with
  | Some _ => mret tt
  | None => initialize
  end.

(** *** One attacked instance *)

Record loop_state : Type := mkLoopState {
  current_instance : Instance;
  grads : list vector;
  outputs : Outputs;
  flipped : list nat
}.

Inductive loop_exit : Type :=
  | StoppedChanged
  | StoppedExhausted.

(** What one pass through the body of [while True] does: leave at line
    152, or flip a token and then either [break] or go round again. *)
Inductive iteration : Type :=
  | Exhausted
  | Flipped (st' : loop_state) (stop : bool).

Definition call_get_gradients (inst : Instance) : M (list vector * Outputs) :=
  _ ← emit (EvGradients (tokens inst));
  mret (get_gradients inst).

(** [current_text_field.tokens[index] = new_token]. *)
Definition set_token (inst : Instance) (index : nat) (new_token : string) : Instance :=
  {| tokens := <[index := new_token]> (tokens inst); labels := labels inst |}.

(** [original_outputs['clusters']], when [original_outputs] was ever bound. *)
Definition original_clusters (original_outputs : option Outputs) : except (list cluster) :=
  match original_outputs with
  | None => Raise UnboundLocalError
  | Some oo =>
      match clusters oo with
      | Some cl0 => Ok cl0
      | None => Raise KeyError
      end
  end.

(** Lines 177-182 and 288-293. *)
Definition stop_check (m : mode) (original_outputs : option Outputs)
    (outs : Outputs) (changed : bool) : except bool :=
  match m with
  | Untargeted =>
      match clusters outs with
      | Some cl =>
          cl0 ← original_clusters original_outputs;
          Ok (clusters_differ cl0 cl)
      | None => Ok changed
      end
  | Targeted =>
      diverged ← match clusters outs with
                 | Some cl =>
                     cl0 ← original_clusters original_outputs;
                     Ok (clusters_differ cl0 cl)
                 | None => Ok false
                 end;
      if diverged : bool then Ok true else Ok (negb changed)
  end.

(** The body of [while True] (lines 135-182 and 246-293).  The attacked
    instance was indexed by the last gradient computation, so [input_tokens]
    holds the ids of its current tokens; [self.token_embedding.weight] is
    read from the attacker on every pass. *)
Definition loop_body (m : mode) (fields_to_compare : Fields)
    (original_outputs : option Outputs) (st : loop_state) : M iteration :=
  sel ← lift (select_position (grads st) (clusters (outputs st)) (flipped st));
  match sel with
  | None => mret Exhausted
  | Some index_of_token_to_flip =>
      let flipped' := flipped st ++ [index_of_token_to_flip] in
      _ ← lift (if namespace_indexed then Ok tt else Raise KeyError);
      let input_tokens := map token_to_index (tokens (current_instance st)) in
      original_id_of_token_to_flip ←
        lift (index_list input_tokens index_of_token_to_flip IndexError);
      g ← lift (index_list (grads st) index_of_token_to_flip IndexError);
      emb ← get_token_embedding;
      E ← lift (match emb with
                | Some e => Ok (weight e)
                | None => Raise AttributeError
                end);
      new_id_of_flipped_token ←
        lift (_first_order_taylor (invalid_replacement_indices isalnum vocab) g E
                original_id_of_token_to_flip (mode_sign m));
      new_token ← lift (index_list vocab new_id_of_flipped_token KeyError);
      _ ← emit (EvSetToken index_of_token_to_flip new_token);
      let inst' := set_token (current_instance st) index_of_token_to_flip new_token in
      '(grads', outputs') ← call_get_gradients inst';
      current_instance_labeled ←
        lift (index_list (predictions_to_labeled_instances inst' outputs') 0 IndexError);
      stop ← lift (stop_check m original_outputs outputs'
                     (instance_has_changed current_instance_labeled fields_to_compare));
      mret (Flipped {| current_instance := inst';
                       grads := grads';
                       outputs := outputs';
                       flipped := flipped' |} stop)
  end.

(** What a pass that flips a token has done. *)
Record flip_step (m : mode) (fields_to_compare : Fields)
    (original_outputs : option Outputs) (st : loop_state) (w : world)
    (st' : loop_state) (stop : bool) (w' : world) (index : nat) : Prop := {
  fs_selected :
    select_position (grads st) (clusters (outputs st)) (flipped st) = Ok (Some index);
  fs_taylor : exists old g emb new_id new_token,
    tokens (current_instance st) !! index = Some old /\
    grads st !! index = Some g /\
    token_embedding w = Some emb /\
    _first_order_taylor (invalid_replacement_indices isalnum vocab) g (weight emb)
      (token_to_index old) (mode_sign m) = Ok new_id /\
    vocab !! new_id = Some new_token /\
    current_instance st' = set_token (current_instance st) index new_token /\
    extends w w' [EvSetToken index new_token; EvGradients (tokens (current_instance st'))];
  fs_gradients :
    (grads st', outputs st') = get_gradients (current_instance st');
  fs_flipped : flipped st' = flipped st ++ [index];
  fs_stop : exists labeled,
    predictions_to_labeled_instances (current_instance st') (outputs st') !! 0
      = Some labeled /\
    stop_check m original_outputs (outputs st')
      (instance_has_changed labeled fields_to_compare) = Ok stop
}.

(** [while True], with fuel. *)
Fixpoint attack_loop (fuel : nat) (m : mode) (fields_to_compare : Fields)
    (original_outputs : option Outputs) (st : loop_state) : M (loop_state * loop_exit) :=
  match fuel with
  | 0 => out_of_fuel
  | S fuel' =>
      it ← loop_body m fields_to_compare original_outputs st;
      match it with
      | Exhausted => mret (st, StoppedExhausted)
      | Flipped st' true => mret (st', StoppedChanged)
      | Flipped st' false => attack_loop fuel' m fields_to_compare original_outputs st'
      end
  end.

(** What holds of the state [st] and world [w] of a loop that started on
    instance [inst] with mask [flipped0] in world [w0]. *)
Record loop_invariant (inst : Instance) (flipped0 : list nat) (w0 : world)
    (st : loop_state) (w : world) : Prop := {
  li_flipped : exists added evs,
    flipped st = flipped0 ++ added /\
    extends w0 w evs /\
    flips evs = length added /\
    (forall ev, ev ∈ evs -> ev <> EvForward) /\
    length added + length (eligible (length (tokens inst)) (flipped st))
      <= length (eligible (length (tokens inst)) flipped0);
  li_nodup : NoDup (flipped st);
  li_length : length (tokens (current_instance st)) = length (tokens inst);
  li_labels : labels (current_instance st) = labels inst;
  li_gradients : (grads st, outputs st) = get_gradients (current_instance st);
  li_masked : forall k, k ∈ flipped0 ->
    tokens (current_instance st) !! k = tokens inst !! k
}.

(** The body of [for i, current_instance in enumerate(original_instances)]
    up to the end of the [while]; the second component is
    [original_outputs], rebound only when the first outputs have clusters. *)
Definition attack_instance (m : mode) (inputs : Json) (ignore_tokens : list string)
    (target_word : option string) (original_outputs : option Outputs)
    (inst : Instance) : M (loop_state * option Outputs) :=
  let fields_to_compare := get_fields_to_compare inputs inst in
  '(grads0, outputs0) ← call_get_gradients inst;
  let original_outputs' :=
    match clusters outputs0 with
    | Some _ => Some outputs0
    | None => original_outputs
    end in
  let flipped0 := initial_flipped m ignore_tokens target_word (tokens inst) in
  '(st, _) ← attack_loop (S (length (tokens inst))) m fields_to_compare original_outputs'
               {| current_instance := inst;
                  grads := grads0;
                  outputs := outputs0;
                  flipped := flipped0 |};
  mret (st, original_outputs').

(** The [for] loop over the instances, with its [break] after an instance
    whose outputs carry clusters; [last] is the variable [outputs]. *)
Fixpoint attack_instances (m : mode) (inputs : Json) (ignore_tokens : list string)
    (target_word : option string) (insts : list Instance)
    (original_outputs : option Outputs) (final_tokens : list (list string))
    (last : option Outputs) : M (list (list string) * option Outputs) :=
  match insts with
  | [] => mret (final_tokens, last)
  | inst :: rest =>
      '(st, original_outputs') ←
        attack_instance m inputs ignore_tokens target_word original_outputs inst;
      let final_tokens' := final_tokens ++ [tokens (current_instance st)] in
      match clusters (outputs st) with
      | Some _ => mret (final_tokens', Some (outputs st))
      | None =>
          attack_instances m inputs ignore_tokens target_word rest original_outputs'
            final_tokens' (Some (outputs st))
      end
  end.

(** The dictionary handed to [sanitize]. *)
Record attack_result : Type := mkResult {
  final : list (list string);
  original : list string;
  result_outputs : Outputs
}.

Definition run_attack (m : mode) (inputs : Json) (ignore_tokens : list string)
    (target_word : option string) (original_instances : list Instance) : M attack_result :=
  first ← lift (index_list original_instances 0 IndexError);
  let original_tokens := tokens first in
  '(final_tokens, last) ←
    attack_instances m inputs ignore_tokens target_word original_instances None [] None;
  outs ← lift (match last with
               | Some o => Ok o
               | None => Raise UnboundLocalError
               end);
  mret {| final := final_tokens; original := original_tokens; result_outputs := outs |}.

Definition attack_from_json (inputs : Json) (ignore_tokens : option (list string))
    : M attack_result :=
  _ ← ensure_initialized;
  let ignore_tokens := default default_ignore_tokens ignore_tokens in
  let original_instances := json_to_labeled_instances inputs in
  run_attack Untargeted inputs ignore_tokens None original_instances.

Definition targeted_attack_from_json (inputs : Json) (ignore_tokens : option (list string))
    (target : option string) (target_word : option string) : M attack_result :=
  _ ← ensure_initialized;
  match target with
  | None => lift (Raise ValueError)
  | Some tgt =>
      let ignore_tokens := default default_ignore_tokens ignore_tokens in
      let output_dict := {| clusters := None; raw := words_output tgt |} in
      let instance := _json_to_instance inputs in
      let original_instances := predictions_to_labeled_instances instance output_dict in
      run_attack Targeted inputs ignore_tokens target_word original_instances
  end.

(** The state in which [attack_instance] enters the loop, and the state
    and world a pass leaves behind when it puts [tok] at position [index];
    used to write down concrete runs. *)
Definition start_state (m : mode) (ignore_tokens : list string)
    (target_word : option string) (inst : Instance) : loop_state :=
  {| current_instance := inst;
     grads := (get_gradients inst).1;
     outputs := (get_gradients inst).2;
     flipped := initial_flipped m ignore_tokens target_word (tokens inst) |}.

Definition flipped_state (st : loop_state) (index : nat) (tok : string) : loop_state :=
  let inst' := set_token (current_instance st) index tok in
  {| current_instance := inst';
     grads := (get_gradients inst').1;
     outputs := (get_gradients inst').2;
     flipped := flipped st ++ [index] |}.

Definition flipped_world (w : world) (st : loop_state) (index : nat) (tok : string) : world :=
  {| token_embedding := token_embedding w;
     trace := trace w ++ [EvSetToken index tok;
                          EvGradients (<[index := tok]> (tokens (current_instance st)))] |}.

End Hotflip.

(** ** Measures of a trace *)

Definition is_gradients (ev : event) : bool :=
  match ev with
  | EvGradients _ => true
  | _ => false
  end.

(** The number of calls of [predictor.get_gradients] in a sequence of
    effects. *)
Definition gradient_calls (evs : list event) : nat :=
  length (filter (fun ev => is_gradients ev) evs).


#[global] Instance token_indexer_eq_dec : EqDecision token_indexer.
Proof. solve_decision. Defined.

Section HotflipInputs.

Context {P : Predictor}.


End HotflipInputs.

(** ** Two small predictors

    A sentiment classifier with a lookup-table embedding and a coreference
    model whose outputs carry clusters; the examples below run the attack on
    them. *)

Fixpoint index_of (tok : string) (i : nat) (toks : list string) : option nat :=
  match toks with
  | [] => None
  | t :: toks' => if String.eqb t tok then Some i else index_of tok (S i) toks'
  end.

Definition count_token (tok : string) (toks : list string) : nat :=
  length (filter (fun t => t = tok) toks).

Definition demo_vocab : vocabulary :=
  ["@@PADDING@@"; "@@UNKNOWN@@"; "good"; "bad"; "film"; "."]%string.

Definition demo_table : matrix :=
  [[0; 0]; [0; 0]; [2; 1]; [-2; 1]; [0; 3]; [0; 0]]%Z.

(** The model answers 1 (positive) when "good" outnumbers "bad". *)
Definition demo_predict (toks : list string) : nat :=
  if count_token "bad" toks <? count_token "good" toks then 1 else 0.

(** The gradient of the loss of label [label] at a token: along the first
    axis, towards "bad" for the positive label and towards "good" for the
    negative one; the full stop has the largest norm. *)
Definition demo_gradient (label : nat) (tok : string) : list Z :=
  let sgn := if label =? 1 then (-1)%Z else 1%Z in
  if String.eqb tok "." then [sgn * 5; 5]%Z
  else if String.eqb tok "film" then [sgn * 1; 0]%Z
  else [sgn * 3; 0]%Z.

Definition demo_classifier : Predictor := {|
  Json := list (list string);
  Labels := nat;
  Raw := nat;
  Fields := nat;
  CharTensor := unit;
  ElmoIds := unit;
  vocab := demo_vocab;
  token_indexers := [SingleIdTokenIndexer];
  find_embedding_layer := LookupTable demo_table;
  characters_as_padded_tensor := fun _ _ => tt;
  elmo_tokens_to_indices := fun _ => tt;
  token_to_index := fun tok => default 1 (index_of tok 0 demo_vocab);
  namespace_indexed := true;
  isalnum := ascii_isalnum;
  json_to_labeled_instances :=
    map (fun toks => {| tokens := toks; labels := demo_predict toks |});
  _json_to_instance := fun json => {| tokens := concat json; labels := 0 |};
  predictions_to_labeled_instances :=
    fun inst outs => [{| tokens := tokens inst; labels := raw outs |}];
  words_output := fun target => if String.eqb target "positive" then 1 else 0;
  get_gradients := fun inst =>
    (map (demo_gradient (labels inst)) (tokens inst),
     {| clusters := None; raw := demo_predict (tokens inst) |});
  get_fields_to_compare := fun _ inst => labels inst;
  instance_has_changed := fun inst reference => negb (labels inst =? reference)
|}.

Definition coref_vocab : vocabulary :=
  ["@@PADDING@@"; "@@UNKNOWN@@"; "Ann"; "said"; "she"; "left"]%string.

(** The model links the first token to every later "she"; the embedding
    stage is a module that has to be run. *)
Definition coref_clusters (toks : list string) : list cluster :=
  match index_of "she" 0 toks with
  | Some i => [[(0, 0); (i, i)]]
  | None => []
  end.

Definition demo_coref : Predictor := {|
  Json := list string;
  Labels := unit;
  Raw := unit;
  Fields := unit;
  CharTensor := list string;
  ElmoIds := string;
  vocab := coref_vocab;
  token_indexers := [TokenCharactersIndexer; ELMoTokenCharactersIndexer];
  find_embedding_layer :=
    EmbedderStage (fun ai => map (fun i => [Z.of_nat i; 1%Z]) (in_tokens ai));
  characters_as_padded_tensor := fun toks _ => toks;
  elmo_tokens_to_indices := fun tok => tok;
  token_to_index := fun tok => default 1 (index_of tok 0 coref_vocab);
  namespace_indexed := true;
  isalnum := ascii_isalnum;
  json_to_labeled_instances := fun json => [{| tokens := json; labels := tt |}];
  _json_to_instance := fun json => {| tokens := json; labels := tt |};
  predictions_to_labeled_instances := fun inst _ => [inst];
  words_output := fun _ => tt;
  get_gradients := fun inst =>
    (map (fun tok => [Z.of_nat (String.length tok); 0%Z]) (tokens inst),
     {| clusters := Some (coref_clusters (tokens inst)); raw := tt |});
  get_fields_to_compare := fun _ _ => tt;
  instance_has_changed := fun _ _ => false
|}.




Definition fresh_world : world := {| token_embedding := None; trace := [] |}.

Definition ready_world (e : Embedding) : world := {| token_embedding := Some e; trace := [] |}.

Definition demo_embedding : Embedding :=
  {| num_embeddings := 6; embedding_dim := 2; weight := demo_table; trainable := false |}.

Definition coref_embedding : Embedding :=
  {| num_embeddings := 6;
     embedding_dim := 2;
     weight := [[0; 1]; [1; 1]; [2; 1]; [3; 1]; [4; 1]; [5; 1]]%Z;
     trainable := false |}.

(** "good film ." as the classifier labels it, "bad film ." labelled with
    the target "positive", and the sentence of the coreference model. *)
Definition demo_instance : Instance nat :=
  {| tokens := ["good"; "film"; "."]%string; labels := 1 |}.

Definition demo_target_instance : Instance nat :=
  {| tokens := ["bad"; "film"; "."]%string; labels := 1 |}.

Definition coref_instance : Instance unit :=
  {| tokens := ["Ann"; "said"; "she"; "left"]%string; labels := tt |}.

Definition dot_instance : Instance nat :=
  {| tokens := ["."]%string; labels := 0 |}.

Definition empty_instance : Instance nat :=
  {| tokens := []; labels := 0 |}.

Definition demo_start : loop_state (P := demo_classifier) :=
  start_state (P := demo_classifier) Untargeted default_ignore_tokens None demo_instance.


Definition demo_word_start : loop_state (P := demo_classifier) :=
  start_state (P := demo_classifier) Targeted default_ignore_tokens (Some "film"%string)
    demo_target_instance.

Definition coref_start : loop_state (P := demo_coref) :=
  start_state (P := demo_coref) Untargeted default_ignore_tokens None coref_instance.

Definition demo_world : world := ready_world demo_embedding.

Definition coref_world : world := ready_world coref_embedding.

Definition demo_two_sentences : list (list string) :=
  [["good"; "film"; "."]; ["bad"; "bad"; "good"]]%string.

Definition demo_two_result : attack_result (P := demo_classifier) :=
  mkResult (P := demo_classifier)
    [["bad"; "film"; "."]; ["good"; "bad"; "good"]]%string
    ["good"; "film"; "."]%string
    {| clusters := None; raw := 1 |}.

Definition demo_two_world : world :=
  {| token_embedding := Some demo_embedding;
     trace := [EvGradients ["good"; "film"; "."]; EvSetToken 0 "bad";
               EvGradients ["bad"; "film"; "."];
               EvGradients ["bad"; "bad"; "good"]; EvSetToken 0 "good";
               EvGradients ["good"; "bad"; "good"]]%string |}.

(** * Properties *)

(** ** The order on scores and [argmax] *)

Lemma score_ltb_irrefl a : score_ltb a a = false.
Proof. destruct a; simpl; [reflexivity | apply Z.ltb_irrefl]. Qed.

Lemma score_le_lt_trans a b c :
  score_ltb a b = false -> score_ltb a c = true -> score_ltb b c = true.
Proof.
  destruct a, b, c; simpl; try congruence.
  rewrite Z.ltb_ge, !Z.ltb_lt. lia.
Qed.

Lemma score_lt_not_lt a b c :
  score_ltb a b = false -> score_ltb a c = true -> score_ltb c b = false.
Proof.
  destruct a, b, c; simpl; try congruence.
  rewrite !Z.ltb_ge, Z.ltb_lt. lia.
Qed.

Lemma argmax_from_first_max (l : list score) : forall pre best_i best,
  pre !! best_i = Some best ->
  (forall k w, pre !! k = Some w -> score_ltb best w = false) ->
  (forall k w, k < best_i -> pre !! k = Some w -> score_ltb w best = true) ->
  is_first_max (pre ++ l) (argmax_from best_i best (length pre) l).
Proof.
  induction l as [|x l IH]; intros pre bi best Hbi Hmax Hfirst; simpl.
  - rewrite app_nil_r. exists best. auto.
  - assert (Hlen : bi < length pre) by (eapply lookup_lt_Some; eauto).
    replace (pre ++ x :: l) with ((pre ++ [x]) ++ l) by (rewrite <- app_assoc; reflexivity).
    replace (S (length pre)) with (length (pre ++ [x])) by (rewrite length_app; simpl; lia).
    destruct (score_ltb best x) eqn:Hlt.
    + replace (length pre) with (length pre + 0) at 1 by lia.
      replace (length pre + 0) with (length pre) by lia.
      apply IH.
      * rewrite lookup_app_r by lia. rewrite Nat.sub_diag. reflexivity.
      * intros k w Hk. apply lookup_snoc_Some in Hk as [[Hk1 Hk2]|[Hk1 Hk2]].
        -- eapply score_lt_not_lt; [eapply Hmax; eauto | exact Hlt].
        -- subst. apply score_ltb_irrefl.
      * intros k w Hk Hw. rewrite lookup_app_l in Hw by lia.
        eapply score_le_lt_trans; [eapply Hmax; eauto | exact Hlt].
    + apply IH.
      * rewrite lookup_app_l by lia. exact Hbi.
      * intros k w Hk. apply lookup_snoc_Some in Hk as [[Hk1 Hk2]|[Hk1 Hk2]].
        -- eapply Hmax; eauto.
        -- subst. exact Hlt.
      * intros k w Hk Hw. rewrite lookup_app_l in Hw by lia. eapply Hfirst; eauto.
Qed.

Lemma argmax_first_max (l : list score) r :
  argmax l = Ok r -> is_first_max l r.
Proof.
  destruct l as [|x l]; simpl; [discriminate|].
  intros [= <-].
  apply (argmax_from_first_max l [x] 0 x).
  - reflexivity.
  - intros [|k] w; simpl; [intros [= <-]; apply score_ltb_irrefl | discriminate].
  - intros k w Hk. lia.
Qed.

Lemma argmax_nonempty (l : list score) :
  l <> [] -> exists r, argmax l = Ok r.
Proof. destruct l; [congruence | simpl; eauto]. Qed.

Lemma is_first_max_lt (l : list score) r : is_first_max l r -> r < length l.
Proof. intros (v & Hv & _). eapply lookup_lt_Some; eauto. Qed.

(** ** The candidate selector *)

Lemma foldl_insert_lookup (v : score) (idxs : list nat) : forall (d : list score) k,
  foldl (fun acc i => <[i := v]> acc) d idxs !! k =
  if decide (k ∈ idxs) then (fun _ => v) <$> d !! k else d !! k.
Proof.
  induction idxs as [|i idxs IH]; intros d k; simpl.
  - destruct (decide (k ∈ [])) as [H|H]; [inversion H | reflexivity].
  - rewrite IH, list_lookup_insert.
    destruct (decide (k ∈ idxs)) as [Hin|Hin];
      destruct (decide (k ∈ i :: idxs)) as [Hin'|Hin'];
      destruct (decide (i = k ∧ i < length d)) as [[-> Hlt]|Hne];
      try (apply lookup_lt_is_Some in Hlt as [x Hx]; rewrite ?Hx);
      try reflexivity;
      try (exfalso; apply Hin'; apply elem_of_cons; auto; fail).
    apply elem_of_cons in Hin' as [->|Hin']; [|contradiction].
    destruct (d !! i) eqn:Hd; [|reflexivity].
    exfalso. apply Hne. split; [reflexivity|]. eapply lookup_lt_Some; eauto.
Qed.

Lemma forallb_lt_Forall (invalid : list nat) n :
  forallb (fun i => i <? n) invalid = true <-> Forall (fun i => i < n) invalid.
Proof.
  rewrite forallb_forall, Forall_forall.
  split; intros H x Hx.
  - apply Nat.ltb_lt. apply H. apply list_elem_of_In. exact Hx.
  - apply Nat.ltb_lt. apply H. apply list_elem_of_In. exact Hx.
Qed.

Lemma forallb_shape_Forall (E : matrix) n :
  forallb (fun row => length row =? n) E = true <-> Forall (fun row => length row = n) E.
Proof.
  rewrite forallb_forall, Forall_forall.
  split; intros H x Hx.
  - apply Nat.eqb_eq. apply H. apply list_elem_of_In. exact Hx.
  - apply Nat.eqb_eq. apply H. apply list_elem_of_In. exact Hx.
Qed.

Lemma masked_scores_eq invalid g (E : matrix) e s :
  foldl (fun acc i => <[i := NegInf]> acc)
    (map (fun n => Fin (s * (dot g e - n))) (map (dot g) E)) invalid =
  taylor_scores invalid g E e s.
Proof.
  apply list_eq. intros k.
  rewrite foldl_insert_lookup. unfold taylor_scores.
  rewrite list_lookup_imap.
  change (map ?f ?l) with (f <$> l).
  rewrite !list_lookup_fmap.
  destruct (decide (k ∈ invalid)); destruct (E !! k); reflexivity.
Qed.

(** On well-shaped arguments the selector is [argmax] over the scores of the
    specification. *)
Lemma first_order_taylor_argmax invalid g (E : matrix) t s e :
  E !! t = Some e ->
  Forall (fun row => length row = length g) E ->
  Forall (fun i => i < length E) invalid ->
  _first_order_taylor invalid g E t s = argmax (taylor_scores invalid g E e s).
Proof.
  intros Ht Hshape Hinv. unfold _first_order_taylor. rewrite Ht.
  apply forallb_shape_Forall in Hshape. rewrite Hshape.
  unfold mask_invalid. rewrite !length_map.
  apply forallb_lt_Forall in Hinv. rewrite Hinv.
  simpl. rewrite masked_scores_eq. reflexivity.
Qed.

(** Whenever the selector returns, its arguments were well shaped. *)
Lemma first_order_taylor_Ok_inv invalid g (E : matrix) t s r :
  _first_order_taylor invalid g E t s = Ok r ->
  exists e, E !! t = Some e /\
    Forall (fun row => length row = length g) E /\
    Forall (fun i => i < length E) invalid.
Proof.
  unfold _first_order_taylor. destruct (E !! t) as [e|] eqn:Ht; [|discriminate].
  destruct (forallb (fun row => length row =? length g) E) eqn:Hshape; [|discriminate].
  unfold mask_invalid. rewrite !length_map.
  destruct (forallb (fun i => i <? length E) invalid) eqn:Hinv; [|discriminate].
  intros _. exists e. split; [reflexivity|].
  split; [apply forallb_shape_Forall | apply forallb_lt_Forall]; assumption.
Qed.

Lemma taylor_scores_length invalid g (E : matrix) e s :
  length (taylor_scores invalid g E e s) = length E.
Proof. unfold taylor_scores. apply length_imap. Qed.

Lemma taylor_scores_lookup invalid g (E : matrix) e s k Ek :
  E !! k = Some Ek ->
  taylor_scores invalid g E e s !! k =
  Some (if decide (k ∈ invalid) then NegInf else Fin (s * (dot g e - dot g Ek))).
Proof.
  intros H. unfold taylor_scores. rewrite list_lookup_imap.
  rewrite H. reflexivity.
Qed.

Lemma positions_where_elem {A} (p : A -> bool) (xs : list A) : forall i k,
  k ∈ positions_where p i xs <-> exists x, i <= k /\ xs !! (k - i) = Some x /\ p x = true.
Proof.
  induction xs as [|x xs IH]; intros i k; simpl.
  - split; [intros H; inversion H | intros (x & _ & H & _); discriminate].
  - assert (Hrest : k ∈ positions_where p (S i) xs <->
              exists y, S i <= k /\ xs !! (k - S i) = Some y /\ p y = true) by apply IH.
    destruct (p x) eqn:Hp.
    + rewrite elem_of_cons, Hrest. split.
      * intros [->|(y & Hle & Hy & Hpy)].
        -- exists x. rewrite Nat.sub_diag. auto.
        -- exists y. split; [lia|]. split; [|exact Hpy].
           replace (k - i) with (S (k - S i)) by lia. exact Hy.
      * intros (y & Hle & Hy & Hpy).
        destruct (decide (k = i)) as [->|Hne]; [left; reflexivity|right].
        exists y. split; [lia|]. split; [|exact Hpy].
        replace (k - i) with (S (k - S i)) in Hy by lia. exact Hy.
    + rewrite Hrest. split.
      * intros (y & Hle & Hy & Hpy). exists y. split; [lia|]. split; [|exact Hpy].
        replace (k - i) with (S (k - S i)) by lia. exact Hy.
      * intros (y & Hle & Hy & Hpy).
        destruct (decide (k = i)) as [->|Hne].
        -- rewrite Nat.sub_diag in Hy. simpl in Hy. congruence.
        -- exists y. split; [lia|]. split; [|exact Hpy].
           replace (k - i) with (S (k - S i)) in Hy by lia. exact Hy.
Qed.

Lemma positions_where_NoDup {A} (p : A -> bool) (xs : list A) : forall i,
  NoDup (positions_where p i xs).
Proof.
  induction xs as [|x xs IH]; intros i; simpl; [constructor|].
  destruct (p x); [|apply IH].
  constructor; [|apply IH].
  rewrite positions_where_elem. intros (y & Hle & _). lia.
Qed.

Lemma positions_where_0 {A} (p : A -> bool) (xs : list A) k :
  k ∈ positions_where p 0 xs <-> exists x, xs !! k = Some x /\ p x = true.
Proof.
  rewrite positions_where_elem. rewrite Nat.sub_0_r.
  split; [intros (x & _ & H); eauto | intros (x & H); exists x; split; [lia | exact H]].
Qed.

(** The invalid-replacement set is the set of ids whose token is not
    alphanumeric. *)
Lemma invalid_replacement_indices_spec (isalnum : string -> bool)
    (vocab : vocabulary) k :
  k ∈ invalid_replacement_indices isalnum vocab <->
  exists tok, vocab !! k = Some tok /\ isalnum tok = false.
Proof.
  unfold invalid_replacement_indices. rewrite positions_where_0.
  split; intros (tok & H1 & H2); exists tok; (split; [exact H1|]).
  - apply negb_true_iff. exact H2.
  - apply negb_true_iff. exact H2.
Qed.

(** ** Masking and the choice of the position *)

Lemma foldl_insert_length (v : score) (idxs : list nat) : forall (d : list score),
  length (foldl (fun acc i => <[i := v]> acc) d idxs) = length d.
Proof.
  induction idxs as [|i idxs IH]; intros d; simpl; [reflexivity|].
  rewrite IH. apply length_insert.
Qed.

Lemma mask_positions_Ok (idxs : list nat) : forall (mag m' : list score),
  mask_positions mag idxs = Ok m' <->
  Forall (fun i => i < length mag) idxs /\
  m' = foldl (fun acc i => <[i := Fin (-1)]> acc) mag idxs.
Proof.
  induction idxs as [|i idxs IH]; intros mag m'; simpl.
  - split; [intros [= <-]; auto | intros [_ ->]; reflexivity].
  - destruct (i <? length mag) eqn:Hi.
    + apply Nat.ltb_lt in Hi. rewrite IH. rewrite length_insert.
      rewrite Forall_cons. tauto.
    + apply Nat.ltb_ge in Hi. split; [discriminate|].
      intros [H _]. apply Forall_cons in H as [H _]. lia.
Qed.

Lemma mask_positions_lookup (mag m' : list score) idxs k :
  mask_positions mag idxs = Ok m' ->
  m' !! k = if decide (k ∈ idxs) then (fun _ => Fin (-1)) <$> mag !! k else mag !! k.
Proof. intros [_ ->]%mask_positions_Ok. apply foldl_insert_lookup. Qed.

Lemma mask_positions_length (mag m' : list score) idxs :
  mask_positions mag idxs = Ok m' -> length m' = length mag.
Proof. intros [_ ->]%mask_positions_Ok. apply foldl_insert_length. Qed.

Lemma except_bind_Ok_inv {A B} (m : except A) (f : A -> except B) b :
  m ≫= f = Ok b -> exists a, m = Ok a /\ f a = Ok b.
Proof. destruct m as [a|e]; simpl; [eauto | discriminate]. Qed.

(** The masked priorities seen by [numpy.argmax] in [select_position]. *)
Lemma select_position_inv grad cl flipped sel :
  select_position grad cl flipped = Ok sel ->
  exists m2 r v,
    length m2 = length grad /\
    (forall k, k ∈ flipped -> k < length grad) /\
    (forall k, covered cl k -> k < length grad) /\
    (forall k, k < length grad -> k ∈ flipped \/ covered cl k -> m2 !! k = Some (Fin (-1))) /\
    is_first_max m2 r /\ m2 !! r = Some v /\
    sel = (if score_eqb v (Fin (-1)) then None else Some r).
Proof.
  unfold select_position.
  intros (m1 & H1 & H)%except_bind_Ok_inv.
  apply except_bind_Ok_inv in H as (m2 & H2 & H).
  apply except_bind_Ok_inv in H as (r & Hr & H).
  apply argmax_first_max in Hr.
  destruct (m2 !! r) as [v|] eqn:Hv; [|discriminate].
  assert (Hl1 : length m1 = length grad)
    by (rewrite (mask_positions_length _ _ _ H1); apply length_map).
  assert (Hf : forall k, k ∈ flipped -> k < length grad).
  { apply mask_positions_Ok in H1 as [HF _]. rewrite length_map in HF.
    intros k Hk. rewrite Forall_forall in HF. auto. }
  assert (Hm1 : forall k, k < length grad -> k ∈ flipped -> m1 !! k = Some (Fin (-1))).
  { intros k Hk Hin. rewrite (mask_positions_lookup _ _ _ k H1).
    rewrite decide_True by exact Hin.
    destruct (lookup_lt_is_Some_2 (map (fun g => Fin (dot g g)) grad) k) as [x ->];
      [rewrite length_map; exact Hk | reflexivity]. }
  exists m2, r, v.
  destruct cl as [c|]; simpl in *.
  - assert (Hl2 : length m2 = length grad)
      by (rewrite (mask_positions_length _ _ _ H2); exact Hl1).
    split; [exact Hl2|]. split; [exact Hf|].
    split.
    { apply mask_positions_Ok in H2 as [HF _]. rewrite Hl1 in HF.
      intros k Hk. rewrite Forall_forall in HF. auto. }
    split.
    { intros k Hk Hor. rewrite (mask_positions_lookup _ _ _ k H2).
      destruct (decide (k ∈ cluster_positions c)) as [Hc|Hc].
      - destruct (lookup_lt_is_Some_2 m1 k) as [x ->]; [lia | reflexivity].
      - destruct Hor as [Hin|Hin]; [auto | contradiction]. }
    split; [exact Hr|]. split; [exact Hv|].
    destruct (score_eqb v (Fin (-1))); congruence.
  - injection H2 as <-.
    split; [exact Hl1|]. split; [exact Hf|].
    split; [intros k []|].
    split; [intros k Hk [Hin|[]]; auto|].
    split; [exact Hr|]. split; [exact Hv|].
    destruct (score_eqb v (Fin (-1))); congruence.
Qed.

Lemma score_eqb_eq a b : score_eqb a b = true <-> a = b.
Proof.
  destruct a, b; simpl; split; try congruence; try discriminate.
  - intros H. apply Z.eqb_eq in H. congruence.
  - intros [= ->]. apply Z.eqb_refl.
Qed.

(** A position that is chosen lies inside the gradient list and is neither
    flipped already nor covered by a span of the current outputs. *)
Lemma select_position_Some grad cl flipped idx :
  select_position grad cl flipped = Ok (Some idx) ->
  idx < length grad /\ (idx ∉ flipped) /\ ~ covered cl idx.
Proof.
  intros (m2 & r & v & Hlen & Hf & Hc & Hmask & Hmax & Hv & Hsel)%select_position_inv.
  destruct (score_eqb v (Fin (-1))) eqn:Heq; [discriminate|].
  injection Hsel as ->.
  assert (Hlt : r < length grad) by (rewrite <- Hlen; eapply lookup_lt_Some; eauto).
  split; [exact Hlt|].
  assert (Hno : ~ (r ∈ flipped \/ covered cl r)).
  { intros Hor. specialize (Hmask r Hlt Hor). rewrite Hv in Hmask.
    injection Hmask as ->. simpl in Heq. discriminate. }
  tauto.
Qed.

(** With a non-empty gradient list whose positions are all masked, and no
    mask outside the list, the choice reports exhaustion. *)
Lemma select_position_exhausted grad cl flipped :
  grad <> [] ->
  (forall k, k ∈ flipped -> k < length grad) ->
  (forall k, covered cl k -> k < length grad) ->
  (forall k, k < length grad -> k ∈ flipped \/ covered cl k) ->
  select_position grad cl flipped = Ok None.
Proof.
  intros Hne Hf Hc Hall. unfold select_position.
  destruct (mask_positions (map (fun g => Fin (dot g g)) grad) flipped) as [m1|e] eqn:H1.
  2:{ exfalso.
      assert (Hok : exists m', mask_positions (map (fun g => Fin (dot g g)) grad) flipped = Ok m').
      { eexists. apply mask_positions_Ok. split; [|reflexivity].
        rewrite length_map. apply Forall_forall. exact Hf. }
      destruct Hok as [m' Hm']. congruence. }
  assert (Hl1 : length m1 = length grad)
    by (rewrite (mask_positions_length _ _ _ H1); apply length_map).
  simpl.
  destruct (match cl with
            | Some c => mask_positions m1 (cluster_positions c)
            | None => Ok m1
            end) as [m2|e] eqn:H2.
  2:{ exfalso. destruct cl as [c|]; [|discriminate].
      assert (Hok : exists m', mask_positions m1 (cluster_positions c) = Ok m').
      { eexists. apply mask_positions_Ok. split; [|reflexivity].
        rewrite Hl1. apply Forall_forall. exact Hc. }
      destruct Hok as [m' Hm']. congruence. }
  simpl.
  assert (Hl2 : length m2 = length grad).
  { destruct cl as [c|]; [|congruence].
    rewrite (mask_positions_length _ _ _ H2). exact Hl1. }
  destruct (argmax m2) as [r|e] eqn:Hr.
  2:{ exfalso. destruct (argmax_nonempty m2) as [r' Hr']; [|congruence].
      intros ->. destruct grad; [congruence | discriminate]. }
  simpl.
  assert (Hsel : select_position grad cl flipped =
                 match m2 !! r with
                 | Some v => if score_eqb v (Fin (-1)) then Ok None else Ok (Some r)
                 | None => Raise IndexError
                 end).
  { unfold select_position. rewrite H1. simpl. rewrite H2. simpl. rewrite Hr. reflexivity. }
  destruct (m2 !! r) as [v|] eqn:Hv.
  - destruct (score_eqb v (Fin (-1))) eqn:Heq; [reflexivity|].
    exfalso. apply select_position_Some in Hsel as (Hlt & Hnf & Hnc).
    destruct (Hall r Hlt); contradiction.
  - exfalso. apply argmax_first_max, is_first_max_lt in Hr.
    apply lookup_ge_None in Hv. lia.
Qed.

(** ** Reasoning about the monad *)

Lemma M_bind_Ok_inv {A B} (m : M A) (f : A -> M B) w b w' :
  (m ≫= f) w = (Some (Ok b), w') ->
  exists a w1, m w = (Some (Ok a), w1) /\ f a w1 = (Some (Ok b), w').
Proof.
  unfold mbind, M_bind. destruct (m w) as [[[a|e]|] w1]; try discriminate. eauto.
Qed.

Lemma M_bind_fuel_inv {A B} (m : M A) (f : A -> M B) w w' :
  (m ≫= f) w = (None, w') ->
  m w = (None, w') \/ exists a w1, m w = (Some (Ok a), w1) /\ f a w1 = (None, w').
Proof.
  unfold mbind, M_bind. destruct (m w) as [[[a|e]|] w1]; intros H.
  - right. eauto.
  - discriminate.
  - left. congruence.
Qed.

Lemma lift_Ok_inv {A} (m : except A) w a w' :
  lift m w = (Some (Ok a), w') -> m = Ok a /\ w' = w.
Proof. unfold lift. intros [= -> ->]. auto. Qed.

Lemma mret_Ok_inv {A} (x : A) w a w' :
  (mret x : M A) w = (Some (Ok a), w') -> a = x /\ w' = w.
Proof. unfold mret, M_ret. intros [= -> ->]. auto. Qed.

Lemma emit_Ok_inv ev w u w' :
  emit ev w = (Some (Ok u), w') ->
  w' = {| token_embedding := token_embedding w; trace := trace w ++ [ev] |}.
Proof. unfold emit. intros [= _ <-]. reflexivity. Qed.

Lemma index_list_Ok {A} (xs : list A) i e x :
  index_list xs i e = Ok x <-> xs !! i = Some x.
Proof.
  unfold index_list. destruct (xs !! i); split; congruence.
Qed.

Lemma extends_refl w : extends w w [].
Proof. split; [reflexivity | rewrite app_nil_r; reflexivity]. Qed.

Lemma extends_trans w1 w2 w3 evs1 evs2 :
  extends w1 w2 evs1 -> extends w2 w3 evs2 -> extends w1 w3 (evs1 ++ evs2).
Proof.
  intros [He1 Ht1] [He2 Ht2]. split; [congruence|].
  rewrite Ht2, Ht1, app_assoc. reflexivity.
Qed.

Section HotflipProperties.

Context {P : Predictor}.

Local Abbreviation Instance := (Instance Labels).
Local Abbreviation Outputs := (Outputs Raw).

Lemma call_get_gradients_inv (inst : Instance) w r w' :
  call_get_gradients inst w = (Some (Ok r), w') ->
  r = get_gradients inst /\ extends w w' [EvGradients (tokens inst)].
Proof.
  unfold call_get_gradients.
  intros (u & w1 & H1 & H2)%M_bind_Ok_inv.
  apply emit_Ok_inv in H1. apply mret_Ok_inv in H2 as [-> ->].
  subst w1. split; [reflexivity|]. split; reflexivity.
Qed.

(** *** One pass through the body of the loop *)

Lemma loop_body_Flipped_inv m fields oo st w st' stop w' :
  loop_body m fields oo st w = (Some (Ok (Flipped st' stop)), w') ->
  exists index, flip_step m fields oo st w st' stop w' index.
Proof.
  unfold loop_body.
  intros (sel & w1 & Hsel & H)%M_bind_Ok_inv.
  apply lift_Ok_inv in Hsel as [Hsel ->].
  destruct sel as [index|]; [|apply mret_Ok_inv in H as [[=] _]].
  apply M_bind_Ok_inv in H as (u0 & w1 & Hkey & H).
  apply lift_Ok_inv in Hkey as [_ ->].
  apply M_bind_Ok_inv in H as (oid & w1 & Hoid & H).
  apply lift_Ok_inv in Hoid as [Hoid ->].
  apply M_bind_Ok_inv in H as (g & w1 & Hg & H).
  apply lift_Ok_inv in Hg as [Hg ->].
  apply M_bind_Ok_inv in H as (emb & w1 & Hemb & H).
  unfold get_token_embedding in Hemb. injection Hemb as <- <-.
  apply M_bind_Ok_inv in H as (E & w1 & HE & H).
  apply lift_Ok_inv in HE as [HE ->].
  apply M_bind_Ok_inv in H as (new_id & w1 & Hnew & H).
  apply lift_Ok_inv in Hnew as [Hnew ->].
  apply M_bind_Ok_inv in H as (new_token & w1 & Htok & H).
  apply lift_Ok_inv in Htok as [Htok ->].
  apply M_bind_Ok_inv in H as (u & w1 & Hemit & H).
  apply emit_Ok_inv in Hemit.
  apply M_bind_Ok_inv in H as ([grads' outputs'] & w2 & Hgrad & H).
  apply call_get_gradients_inv in Hgrad as [Hgrad Hext].
  apply M_bind_Ok_inv in H as (labeled & w3 & Hlab & H).
  apply lift_Ok_inv in Hlab as [Hlab ->].
  apply M_bind_Ok_inv in H as (stop' & w3 & Hstop & H).
  apply lift_Ok_inv in Hstop as [Hstop ->].
  apply mret_Ok_inv in H as [[= -> ->] ->].
  apply index_list_Ok in Hoid, Hg, Htok, Hlab.
  rewrite list_lookup_fmap in Hoid.
  destruct (tokens (current_instance st) !! index) as [old|] eqn:Hold; [|discriminate].
  injection Hoid as <-.
  destruct (token_embedding w) as [emb|] eqn:Hw; [|discriminate].
  injection HE as <-.
  exists index. constructor; simpl.
  - exact Hsel.
  - exists old, g, emb, new_id, new_token.
    repeat (split; [first [assumption | reflexivity]|]).
    destruct Hext as [He Ht]. subst w1. simpl in *.
    split; [congruence|]. rewrite Ht, <- app_assoc. reflexivity.
  - exact Hgrad.
  - reflexivity.
  - exists labeled. split; assumption.
Qed.

Lemma loop_body_Exhausted_inv m fields oo st w w' :
  loop_body m fields oo st w = (Some (Ok Exhausted), w') ->
  select_position (grads st) (clusters (outputs st)) (flipped st) = Ok None /\ w' = w.
Proof.
  unfold loop_body.
  intros (sel & w1 & Hsel & H)%M_bind_Ok_inv.
  apply lift_Ok_inv in Hsel as [Hsel ->].
  destruct sel as [index|]; [|apply mret_Ok_inv in H as [_ ->]; auto].
  exfalso.
  repeat first
    [ apply M_bind_Ok_inv in H as (? & ? & _ & H)
    | match type of H with
      | context [let '(_, _) := ?x in _] => destruct x
      end ].
  apply mret_Ok_inv in H as [[=] _].
Qed.

Lemma loop_body_fuel m fields oo st w w' :
  loop_body m fields oo st w <> (None, w').
Proof.
  unfold loop_body, call_get_gradients, get_token_embedding, emit, lift, mbind, M_bind,
    mret, M_ret.
  repeat match goal with
         | |- context [match ?x with _ => _ end] => destruct x
         end; discriminate.
Qed.

(** *** The loop *)

(** An invariant of the loop state and world that every flipping pass
    preserves holds when the loop returns; a loop that returns
    [StoppedExhausted] left on an exhausted choice, one that returns
    [StoppedChanged] left on a stopping check that held. *)
Lemma attack_loop_invariant (Inv : loop_state -> world -> Prop) m fields oo :
  (forall st w st' stop w' index,
      Inv st w -> flip_step m fields oo st w st' stop w' index -> Inv st' w') ->
  forall fuel st w st' ex w',
    Inv st w ->
    attack_loop fuel m fields oo st w = (Some (Ok (st', ex)), w') ->
    Inv st' w' /\
    (ex = StoppedExhausted ->
     select_position (grads st') (clusters (outputs st')) (flipped st') = Ok None).
Proof.
  intros Hstep. induction fuel as [|fuel IH]; intros st w st' ex w' Hinv H; simpl in H.
  - discriminate.
  - apply M_bind_Ok_inv in H as (it & w1 & Hbody & H).
    destruct it as [|st1 [|]].
    + apply loop_body_Exhausted_inv in Hbody as [Hsel ->].
      apply mret_Ok_inv in H as [[= -> ->] ->]. auto.
    + apply loop_body_Flipped_inv in Hbody as [index Hfs].
      apply mret_Ok_inv in H as [[= -> ->] ->].
      split; [eapply Hstep; eauto | discriminate].
    + apply loop_body_Flipped_inv in Hbody as [index Hfs].
      eapply IH; [|exact H]. eapply Hstep; eauto.
Qed.

Lemma eligible_length n fl : length (eligible n fl) <= n.
Proof.
  unfold eligible.
  etransitivity; [apply length_filter|]. rewrite length_seq. reflexivity.
Qed.

Lemma eligible_snoc n fl index :
  index < n -> index ∉ fl ->
  length (eligible n (fl ++ [index])) < length (eligible n fl).
Proof.
  intros Hlt Hnot. unfold eligible.
  rewrite <- (list_filter_filter_l (fun i => i ∉ fl ++ [index]) (fun i => i ∉ fl)).
  - apply (length_filter_lt _ _ index).
    + apply list_elem_of_filter. split; [exact Hnot|].
      apply elem_of_seq. lia.
    + intros Hn. apply Hn. apply elem_of_app. right. apply list_elem_of_singleton.
      reflexivity.
  - intros x Hx Hin. apply Hx. apply elem_of_app. left. exact Hin.
Qed.

Lemma flip_step_tokens m fields oo st w st' stop w' index :
  flip_step m fields oo st w st' stop w' index ->
  index < length (tokens (current_instance st)) /\
  length (tokens (current_instance st')) = length (tokens (current_instance st)) /\
  labels (current_instance st') = labels (current_instance st).
Proof.
  intros [_ (old & g & emb & new_id & new_token & Hold & _ & _ & _ & _ & Hinst & _) _ _ _].
  split; [eapply lookup_lt_Some; eauto|].
  rewrite Hinst. simpl. split; [apply length_insert | reflexivity].
Qed.

Lemma flip_step_measure m fields oo st w st' stop w' index :
  flip_step m fields oo st w st' stop w' index ->
  length (eligible (length (tokens (current_instance st'))) (flipped st')) <
  length (eligible (length (tokens (current_instance st))) (flipped st)).
Proof.
  intros Hfs. destruct (flip_step_tokens _ _ _ _ _ _ _ _ _ Hfs) as (Hlt & Hlen & _).
  rewrite Hlen, (fs_flipped _ _ _ _ _ _ _ _ _ Hfs).
  apply eligible_snoc; [exact Hlt|].
  pose proof (fs_selected _ _ _ _ _ _ _ _ _ Hfs) as Hsel.
  apply select_position_Some in Hsel. tauto.
Qed.

(** The loop needs at most one pass per eligible position, and one more to
    find none left. *)
Lemma attack_loop_fuel m fields oo : forall fuel st w w',
  length (eligible (length (tokens (current_instance st))) (flipped st)) < fuel ->
  attack_loop fuel m fields oo st w <> (None, w').
Proof.
  induction fuel as [|fuel IH]; intros st w w' Hlt H; [lia|].
  simpl in H. apply M_bind_fuel_inv in H as [H|(it & w1 & Hbody & H)].
  - exact (loop_body_fuel _ _ _ _ _ _ H).
  - destruct it as [|st1 [|]]; try discriminate.
    apply loop_body_Flipped_inv in Hbody as [index Hfs].
    apply flip_step_measure in Hfs.
    eapply IH; [|exact H]. lia.
Qed.

(** Past that bound the amount of fuel does not matter: the fuelled loop is
    the [while True] of the source. *)
Lemma attack_loop_fuel_irrelevant m fields oo : forall fuel fuel' st w,
  length (eligible (length (tokens (current_instance st))) (flipped st)) < fuel ->
  length (eligible (length (tokens (current_instance st))) (flipped st)) < fuel' ->
  attack_loop fuel m fields oo st w = attack_loop fuel' m fields oo st w.
Proof.
  induction fuel as [|fuel IH]; intros fuel' st w Hlt Hlt'; [lia|].
  destruct fuel' as [|fuel']; [lia|].
  simpl. unfold mbind, M_bind.
  destruct (loop_body m fields oo st w) as [[[[|st1 [|]]|e]|] w1] eqn:Hbody;
    try reflexivity.
  apply loop_body_Flipped_inv in Hbody as [index Hfs].
  apply flip_step_measure in Hfs.
  apply IH; lia.
Qed.

Lemma flips_app evs1 evs2 : flips (evs1 ++ evs2) = flips evs1 + flips evs2.
Proof. unfold flips. rewrite filter_app, length_app. reflexivity. Qed.

Lemma loop_invariant_step m fields oo inst flipped0 w0 st w st' stop w' index :
  loop_invariant inst flipped0 w0 st w ->
  flip_step m fields oo st w st' stop w' index ->
  loop_invariant inst flipped0 w0 st' w'.
Proof.
  intros [(added & evs & Hfl & Hext & Hflips & Hnofw & Hmeas) Hnd Hlen Hlab Hgr Hmask] Hfs.
  destruct (flip_step_tokens _ _ _ _ _ _ _ _ _ Hfs) as (Hlt & Hlen' & Hlab').
  pose proof (fs_selected _ _ _ _ _ _ _ _ _ Hfs) as Hsel.
  apply select_position_Some in Hsel as (_ & Hnotin & _).
  pose proof (fs_flipped _ _ _ _ _ _ _ _ _ Hfs) as Hfl'.
  destruct (fs_taylor _ _ _ _ _ _ _ _ _ Hfs)
    as (old & g & emb & new_id & new_token & Hold & _ & _ & _ & _ & Hinst & Hext').
  constructor.
  - exists (added ++ [index]),
      (evs ++ [EvSetToken index new_token; EvGradients (tokens (current_instance st'))]).
    split; [rewrite Hfl', Hfl, app_assoc; reflexivity|].
    split; [eapply extends_trans; eauto|].
    split; [rewrite flips_app, length_app, Hflips; reflexivity|].
    split.
    { intros ev [Hev|Hev]%elem_of_app; [auto|].
      apply elem_of_cons in Hev as [->|Hev]; [discriminate|].
      apply list_elem_of_singleton in Hev as ->. discriminate. }
    rewrite length_app. simpl.
    assert (Hdec := eligible_snoc (length (tokens inst)) (flipped st) index).
    rewrite Hfl'. rewrite <- Hlen in Hdec at 1. specialize (Hdec Hlt Hnotin). lia.
  - rewrite Hfl'. apply NoDup_app. split; [exact Hnd|].
    split; [|apply NoDup_singleton].
    intros x Hx Hx'. apply list_elem_of_singleton in Hx' as ->. contradiction.
  - congruence.
  - congruence.
  - exact (fs_gradients _ _ _ _ _ _ _ _ _ Hfs).
  - intros k Hk. rewrite <- (Hmask k Hk). rewrite Hinst. simpl.
    apply list_lookup_insert_ne. intros ->. apply Hnotin.
    rewrite Hfl. apply elem_of_app. left. exact Hk.
Qed.

Lemma loop_invariant_init (st : loop_state) w :
  NoDup (flipped st) ->
  (grads st, outputs st) = get_gradients (current_instance st) ->
  loop_invariant (current_instance st) (flipped st) w st w.
Proof.
  intros Hnd Hgr. constructor; auto.
  exists [], []. rewrite app_nil_r. simpl.
  split; [reflexivity|]. split; [apply extends_refl|].
  split; [reflexivity|]. split; [intros ev Hev; inversion Hev | lia].
Qed.

(** A loop that returns satisfies the invariant on its final state. *)
Lemma attack_loop_run m fields oo fuel st w st' ex w' :
  NoDup (flipped st) ->
  (grads st, outputs st) = get_gradients (current_instance st) ->
  attack_loop fuel m fields oo st w = (Some (Ok (st', ex)), w') ->
  loop_invariant (current_instance st) (flipped st) w st' w'.
Proof.
  intros Hnd Hgr H.
  eapply (attack_loop_invariant
            (loop_invariant (current_instance st) (flipped st) w)); [| |exact H].
  - intros. eapply loop_invariant_step; eauto.
  - apply loop_invariant_init; assumption.
Qed.

Lemma initial_flipped_NoDup m ignore tw toks : NoDup (initial_flipped m ignore tw toks).
Proof.
  unfold initial_flipped. destruct m, tw; apply positions_where_NoDup.
Qed.

(** One attacked instance: the first gradient computation, then the loop. *)
Lemma attack_instance_inv m inputs ignore tw oo inst w st oo' w' :
  attack_instance m inputs ignore tw oo inst w = (Some (Ok (st, oo')), w') ->
  exists w1,
    extends w w1 [EvGradients (tokens inst)] /\
    loop_invariant inst (initial_flipped m ignore tw (tokens inst)) w1 st w'.
Proof.
  unfold attack_instance.
  intros ([grads0 outputs0] & w1 & Hg & H)%M_bind_Ok_inv.
  apply call_get_gradients_inv in Hg as [Hg Hext].
  apply M_bind_Ok_inv in H as ([st1 ex] & w2 & Hloop & H).
  apply mret_Ok_inv in H as [[= -> ->] ->].
  exists w1. split; [exact Hext|].
  apply attack_loop_run in Hloop; simpl in *; auto.
  apply initial_flipped_NoDup.
Qed.

Lemma attack_instance_fuel m inputs ignore tw oo inst w w' :
  attack_instance m inputs ignore tw oo inst w <> (None, w').
Proof.
  unfold attack_instance. intros H.
  apply M_bind_fuel_inv in H as [H|([grads0 outputs0] & w1 & Hg & H)].
  - unfold call_get_gradients, emit, mbind, M_bind, mret, M_ret in H. discriminate.
  - apply M_bind_fuel_inv in H as [H|([st1 ex] & w2 & _ & H)]; [|discriminate].
    eapply attack_loop_fuel; [|exact H]. simpl.
    pose proof (eligible_length (length (tokens inst))
                  (initial_flipped m ignore tw (tokens inst))). lia.
Qed.

(** *** The loop over the instances *)

Lemma attack_instances_fuel m inputs ignore tw : forall insts oo acc last w w',
  attack_instances m inputs ignore tw insts oo acc last w <> (None, w').
Proof.
  induction insts as [|inst rest IH]; intros oo acc last w w' H; simpl in H.
  - discriminate.
  - apply M_bind_fuel_inv in H as [H|([st oo1] & w1 & _ & H)].
    + exact (attack_instance_fuel _ _ _ _ _ _ _ _ H).
    + destruct (clusters (outputs st)); [discriminate|].
      exact (IH _ _ _ _ _ H).
Qed.

Lemma run_attack_fuel m inputs ignore tw insts w w' :
  run_attack m inputs ignore tw insts w <> (None, w').
Proof.
  unfold run_attack. intros H.
  apply M_bind_fuel_inv in H as [H|(first & w1 & _ & H)]; [discriminate|].
  apply M_bind_fuel_inv in H as [H|([ft lo] & w2 & _ & H)].
  - exact (attack_instances_fuel _ _ _ _ _ _ _ _ _ _ H).
  - apply M_bind_fuel_inv in H as [H|(outs & w3 & _ & H)]; discriminate.
Qed.

(** The outputs left in [outputs] after the loop over the instances are
    those of the model on the final tokens of the last instance that was
    processed. *)
Lemma attack_instances_inv m inputs ignore tw : forall insts oo acc last w ft lo w',
  attack_instances m inputs ignore tw insts oo acc last w = (Some (Ok (ft, lo)), w') ->
  (insts = [] /\ ft = acc /\ lo = last) \/
  exists k inst_k toks_k,
    insts !! k = Some inst_k /\
    length ft = length acc + S k /\
    list.last ft = Some toks_k /\
    lo = Some (get_gradients {| tokens := toks_k; labels := labels inst_k |}).2.
Proof.
  induction insts as [|inst rest IH]; intros oo acc last w ft lo w' H; simpl in H.
  - apply mret_Ok_inv in H as [[= -> ->] _]. left. auto.
  - right.
    apply M_bind_Ok_inv in H as ([st oo1] & w1 & Hinst & H).
    apply attack_instance_inv in Hinst as (w0 & _ & Hinv).
    pose proof (li_labels _ _ _ _ _ Hinv) as Hlab.
    pose proof (li_gradients _ _ _ _ _ Hinv) as Hgr.
    assert (Hout : outputs st =
              (get_gradients {| tokens := tokens (current_instance st);
                                labels := labels inst |}).2).
    { rewrite <- Hlab. destruct (current_instance st). simpl in *.
      rewrite <- Hgr. reflexivity. }
    destruct (clusters (outputs st)) eqn:Hcl.
    + apply mret_Ok_inv in H as [[= -> ->] _].
      exists 0, inst, (tokens (current_instance st)).
      split; [reflexivity|]. split; [rewrite length_app; simpl; lia|].
      split; [apply last_snoc|]. rewrite Hout. reflexivity.
    + apply IH in H as [(-> & -> & ->)|(k & inst_k & toks_k & Hk & Hlen & Hlast & Hlo)].
      * exists 0, inst, (tokens (current_instance st)).
        split; [reflexivity|]. split; [rewrite length_app; simpl; lia|].
        split; [apply last_snoc|]. rewrite Hout. reflexivity.
      * exists (S k), inst_k, toks_k.
        split; [exact Hk|]. rewrite length_app in Hlen. simpl in Hlen.
        split; [lia|]. split; assumption.
Qed.

Lemma run_attack_inv m inputs ignore tw insts w r w' :
  run_attack m inputs ignore tw insts w = (Some (Ok r), w') ->
  exists first k inst_k toks_k,
    insts !! 0 = Some first /\ original r = tokens first /\
    insts !! k = Some inst_k /\
    length (final r) = S k /\
    list.last (final r) = Some toks_k /\
    result_outputs r = (get_gradients {| tokens := toks_k; labels := labels inst_k |}).2.
Proof.
  unfold run_attack.
  intros (first & w1 & Hfirst & H)%M_bind_Ok_inv.
  apply lift_Ok_inv in Hfirst as [Hfirst ->]. apply index_list_Ok in Hfirst.
  apply M_bind_Ok_inv in H as ([ft lo] & w2 & Hinsts & H).
  apply M_bind_Ok_inv in H as (outs & w3 & Houts & H).
  apply lift_Ok_inv in Houts as [Houts ->].
  apply mret_Ok_inv in H as [-> ->]. simpl.
  apply attack_instances_inv in Hinsts
    as [(-> & _)|(k & inst_k & toks_k & Hk & Hlen & Hlast & ->)]; [discriminate|].
  injection Houts as <-.
  exists first, k, inst_k, toks_k. simpl in Hlen. auto 10.
Qed.

(** *** The cached embedding matrix *)














(** [initialize], whatever its outcome, adds at most one forward pass to
    the trace, and none when the embedding stage is a lookup table. *)
Lemma construct_embedding_matrix_trace w r w' :
  _construct_embedding_matrix w = (r, w') ->
  r <> None /\
  token_embedding w' = token_embedding w /\
  (trace w' = trace w \/ trace w' = trace w ++ [EvForward]) /\
  (forall table, find_embedding_layer = LookupTable table -> w' = w).
Proof.
  unfold _construct_embedding_matrix, lift, emit, mbind, M_bind, mret, M_ret.
  destruct (build_inputs vocab _ token_indexers) as [ai|e].
  - destruct find_embedding_layer as [table|forward].
    + intros [= <- <-]. split; [discriminate|]. auto.
    + destruct (squeezed_shape1 (forward ai)); intros [= <- <-]; simpl;
        (split; [discriminate|]); (split; [reflexivity|]);
        (split; [right; reflexivity | discriminate]).
  - intros [= <- <-]. split; [discriminate|]. auto.
Qed.

Lemma ensure_initialized_trace w r w' :
  ensure_initialized w = (r, w') ->
  r <> None /\
  (trace w' = trace w \/ trace w' = trace w ++ [EvForward]) /\
  (forall emb, token_embedding w = Some emb -> r = Some (Ok tt) /\ w' = w) /\
  (r = Some (Ok tt) -> is_Some (token_embedding w')).
Proof.
  unfold ensure_initialized, get_token_embedding, mbind at 1, M_bind at 1.
  destruct (token_embedding w) as [emb|] eqn:Hw.
  - intros [= <- <-]. split; [discriminate|]. split; [auto|].
    split; [auto|]. intros _. rewrite Hw. eauto.
  - unfold initialize, mbind, M_bind.
    destruct (_construct_embedding_matrix w) as [r1 w1] eqn:Hc.
    apply construct_embedding_matrix_trace in Hc as (Hr & _ & Htr & _).
    destruct r1 as [[emb|e]|]; [| |congruence].
    + unfold set_token_embedding. intros [= <- <-]. simpl.
      split; [discriminate|]. split; [exact Htr|].
      split; [discriminate|]. eauto.
    + intros [= <- <-]. split; [discriminate|]. split; [exact Htr|].
      split; discriminate.
Qed.

(** *** The stopping checks *)

Lemma clusters_differ_spec (a b : list cluster) :
  clusters_differ a b = true <-> ~ (forall c, c ∈ a <-> c ∈ b).
Proof.
  unfold clusters_differ. rewrite bool_decide_eq_true.
  split; intros H Heq; apply H.
  - apply set_eq. intros c. rewrite !elem_of_list_to_set. apply Heq.
  - intros c. rewrite <- !(elem_of_list_to_set (C := gset cluster)).
    rewrite Heq. reflexivity.
Qed.

Lemma attack_loop_unfold m fields oo fuel st w st' stop w' :
  loop_body m fields oo st w = (Some (Ok (Flipped st' stop)), w') ->
  attack_loop (S fuel) m fields oo st w =
  if stop then (Some (Ok (st', StoppedChanged)), w')
  else attack_loop fuel m fields oo st' w'.
Proof.
  intros H. simpl. unfold mbind at 1, M_bind at 1. rewrite H.
  destruct stop; reflexivity.
Qed.

Lemma stop_check_untargeted oo (outs : Outputs) changed stop :
  stop_check Untargeted oo outs changed = Ok stop ->
  match clusters outs with
  | Some cl => exists cl0, original_clusters oo = Ok cl0 /\ stop = clusters_differ cl0 cl
  | None => stop = changed
  end.
Proof.
  unfold stop_check. destruct (clusters outs) as [cl|].
  - intros (cl0 & H0 & [= <-])%except_bind_Ok_inv. eauto.
  - intros [= <-]. reflexivity.
Qed.

Lemma stop_check_targeted oo (outs : Outputs) changed stop :
  stop_check Targeted oo outs changed = Ok stop ->
  match clusters outs with
  | Some cl => exists cl0, original_clusters oo = Ok cl0 /\
                           stop = clusters_differ cl0 cl || negb changed
  | None => stop = negb changed
  end.
Proof.
  unfold stop_check. intros (d & Hd & H)%except_bind_Ok_inv.
  destruct (clusters outs) as [cl|].
  - apply except_bind_Ok_inv in Hd as (cl0 & H0 & [= <-]).
    exists cl0. split; [exact H0|].
    destruct (clusters_differ cl0 cl); simpl in *; congruence.
  - injection Hd as <-. congruence.
Qed.

(** C3. In [attack_from_json], after a completed substitution the loop
    breaks exactly when [stop] holds; when the new outputs contain clusters,
    [stop] holds if and only if the set of clusters differs from that of the
    original snapshot, whatever the comparison fields say; when they contain
    none, [stop] is the answer of [instance_has_changed] on the relabelled
    instance and the fields to compare. *)
Theorem untargeted_stop_rule fields oo st w st' stop w' fuel :
  loop_body Untargeted fields oo st w = (Some (Ok (Flipped st' stop)), w') ->
  attack_loop (S fuel) Untargeted fields oo st w =
    (if stop then (Some (Ok (st', StoppedChanged)), w')
     else attack_loop fuel Untargeted fields oo st' w') /\
  match clusters (outputs st') with
  | Some cl =>
      exists cl0, original_clusters oo = Ok cl0 /\
        (stop = true <-> ~ (forall c, c ∈ cl0 <-> c ∈ cl))
  | None =>
      exists labeled,
        predictions_to_labeled_instances (current_instance st') (outputs st') !! 0
          = Some labeled /\
        stop = instance_has_changed labeled fields
  end.
Proof.
  intros H. split; [apply attack_loop_unfold; exact H|].
  apply loop_body_Flipped_inv in H as [index Hfs].
  destruct (fs_stop _ _ _ _ _ _ _ _ _ Hfs) as (labeled & Hlab & Hstop).
  apply stop_check_untargeted in Hstop.
  destruct (clusters (outputs st')) as [cl|].
  - destruct Hstop as (cl0 & H0 & ->). exists cl0. split; [exact H0|].
    apply clusters_differ_spec.
  - exists labeled. auto.
Qed.


(** *** The flipped positions *)

(** C4. A pass of the loop that flips a token appends exactly one position
    to [flipped], and that position was neither in [flipped] (which holds
    the ignored and the already flipped positions) nor covered by a cluster
    of the current outputs; over a whole attacked instance [flipped] is the
    initial mask followed by one position per substitution, without
    repetition. *)
Theorem flipped_grows_by_one :
  (forall m fields oo st w st' stop w',
      loop_body m fields oo st w = (Some (Ok (Flipped st' stop)), w') ->
      exists index,
        flipped st' = flipped st ++ [index] /\
        (index ∉ flipped st) /\
        ~ covered (clusters (outputs st)) index) /\
  (forall m inputs ignore tw oo inst w st oo' w',
      attack_instance m inputs ignore tw oo inst w = (Some (Ok (st, oo')), w') ->
      exists added evs,
        flipped st = initial_flipped m ignore tw (tokens inst) ++ added /\
        NoDup (flipped st) /\
        trace w' = trace w ++ evs /\
        length added = flips evs).
Proof.
  split.
  - intros m fields oo st w st' stop w' H.
    apply loop_body_Flipped_inv in H as [index Hfs].
    exists index. split; [exact (fs_flipped _ _ _ _ _ _ _ _ _ Hfs)|].
    pose proof (fs_selected _ _ _ _ _ _ _ _ _ Hfs) as Hsel.
    apply select_position_Some in Hsel. tauto.
  - intros m inputs ignore tw oo inst w st oo' w' H.
    apply attack_instance_inv in H as (w1 & Hext1 & Hinv).
    destruct (li_flipped _ _ _ _ _ Hinv) as (added & evs & Hfl & Hext & Hflips & _ & _).
    exists added, ([EvGradients (tokens inst)] ++ evs).
    split; [exact Hfl|]. split; [exact (li_nodup _ _ _ _ _ Hinv)|].
    split; [exact (proj2 (extends_trans _ _ _ _ _ Hext1 Hext))|].
    rewrite flips_app, Hflips. reflexivity.
Qed.

(** *** Termination *)

Lemma attack_from_json_fuel inputs ignore w :
  (attack_from_json inputs ignore w).1 <> None.
Proof.
  unfold attack_from_json, mbind, M_bind.
  destruct (ensure_initialized w) as [r w1] eqn:Hinit.
  apply ensure_initialized_trace in Hinit as (Hr & _).
  destruct r as [[[]|e]|]; [| discriminate | congruence].
  destruct (run_attack Untargeted inputs (default default_ignore_tokens ignore) None
              (json_to_labeled_instances inputs) w1) as [r2 w2] eqn:Hrun.
  simpl. intros ->. exact (run_attack_fuel _ _ _ _ _ _ _ Hrun).
Qed.

Lemma targeted_attack_from_json_fuel inputs ignore target tw w :
  (targeted_attack_from_json inputs ignore target tw w).1 <> None.
Proof.
  unfold targeted_attack_from_json, mbind, M_bind.
  destruct (ensure_initialized w) as [r w1] eqn:Hinit.
  apply ensure_initialized_trace in Hinit as (Hr & _).
  destruct r as [[[]|e]|]; [| discriminate | congruence].
  destruct target as [tgt|]; [|discriminate].
  match goal with
  | |- (?c).1 <> None => destruct c as [r2 w2] eqn:Hrun
  end.
  simpl. intros ->. exact (run_attack_fuel _ _ _ _ _ _ _ Hrun).
Qed.

(** Lines 134-153 and 245-264: the loop halts.  Both attacks return a value
    or raise, they never exhaust the fuel of the loop, and more fuel than one
    pass per token and one more changes nothing; an attacked instance sees at
    most as many substitutions as it has tokens; and on a non-empty gradient
    list whose positions are all masked, no mask lying outside it, the loop
    leaves at once, without error and without any effect. *)
Theorem attack_halts_within_length :
  (forall inputs ignore w, (attack_from_json inputs ignore w).1 <> None) /\
  (forall inputs ignore target tw w,
      (targeted_attack_from_json inputs ignore target tw w).1 <> None) /\
  (forall m inputs ignore tw oo inst w st oo' w',
      attack_instance m inputs ignore tw oo inst w = (Some (Ok (st, oo')), w') ->
      exists evs, trace w' = trace w ++ evs /\ flips evs <= length (tokens inst)) /\
  (forall m fields oo st w fuel,
      grads st <> [] ->
      (forall k, k ∈ flipped st -> k < length (grads st)) ->
      (forall k, covered (clusters (outputs st)) k -> k < length (grads st)) ->
      (forall k, k < length (grads st) ->
                 k ∈ flipped st \/ covered (clusters (outputs st)) k) ->
      attack_loop (S fuel) m fields oo st w = (Some (Ok (st, StoppedExhausted)), w)) /\
  (forall m fields oo st w fuel,
      length (tokens (current_instance st)) < fuel ->
      attack_loop fuel m fields oo st w =
      attack_loop (S (length (tokens (current_instance st)))) m fields oo st w).
Proof.
  split; [exact attack_from_json_fuel|].
  split; [exact targeted_attack_from_json_fuel|].
  split; [|split].
  - intros m inputs ignore tw oo inst w st oo' w' H.
    apply attack_instance_inv in H as (w1 & Hext1 & Hinv).
    destruct (li_flipped _ _ _ _ _ Hinv) as (added & evs & _ & Hext & Hflips & _ & Hmeas).
    exists ([EvGradients (tokens inst)] ++ evs).
    split; [exact (proj2 (extends_trans _ _ _ _ _ Hext1 Hext))|].
    rewrite flips_app, Hflips. simpl.
    pose proof (eligible_length (length (tokens inst))
                  (initial_flipped m ignore tw (tokens inst))). lia.
  - intros m fields oo st w fuel Hne Hf Hc Hall.
    simpl. unfold loop_body, mbind, M_bind, lift.
    rewrite (select_position_exhausted _ _ _ Hne Hf Hc Hall). reflexivity.
  - intros m fields oo st w fuel Hlt.
    pose proof (eligible_length (length (tokens (current_instance st))) (flipped st)).
    apply attack_loop_fuel_irrelevant; lia.
Qed.

(** *** The initial mask *)

Lemma initial_flipped_spec m ignore tw (toks : list string) k :
  k ∈ initial_flipped m ignore tw toks <->
  exists text, toks !! k = Some text /\
    match m, tw with
    | Targeted, Some word => text <> word
    | _, _ => text ∈ ignore
    end.
Proof.
  unfold initial_flipped.
  destruct m; [|destruct tw as [word|]]; rewrite positions_where_0;
    split; intros (text & Hk & Hp); exists text; (split; [exact Hk|]);
    cbv beta in *;
    first [ apply bool_decide_eq_true; exact Hp
          | apply bool_decide_eq_true in Hp; exact Hp
          | apply negb_true_iff, String.eqb_neq in Hp; exact Hp
          | apply negb_true_iff, String.eqb_neq; exact Hp ].
Qed.

(** C7, amended. In [attack_from_json], and in [targeted_attack_from_json]
    without a target word, a position is pre-masked exactly when its text is
    in the ignore list; with a target word it is pre-masked exactly when its
    text is not that word, and the ignore list is not consulted.  In the
    latter case every position whose text is not the target word stays
    masked and keeps its token for the whole run. *)
Theorem premask_rule :
  (forall m ignore tw (toks : list string) k,
      k ∈ initial_flipped m ignore tw toks <->
      exists text, toks !! k = Some text /\
        match m, tw with
        | Targeted, Some word => text <> word
        | _, _ => text ∈ ignore
        end) /\
  (forall inputs ignore word oo inst w st oo' w',
      attack_instance Targeted inputs ignore (Some word) oo inst w
        = (Some (Ok (st, oo')), w') ->
      forall k text,
        tokens inst !! k = Some text -> text <> word ->
        k ∈ flipped st /\ tokens (current_instance st) !! k = Some text).
Proof.
  split; [exact initial_flipped_spec|].
  intros inputs ignore word oo inst w st oo' w' H k text Hk Hne.
  apply attack_instance_inv in H as (w1 & _ & Hinv).
  assert (Hin : k ∈ initial_flipped Targeted ignore (Some word) (tokens inst))
    by (apply initial_flipped_spec; eauto).
  destruct (li_flipped _ _ _ _ _ Hinv) as (added & evs & Hfl & _).
  split.
  - rewrite Hfl. apply elem_of_app. left. exact Hin.
  - rewrite (li_masked _ _ _ _ _ Hinv k Hin). exact Hk.
Qed.

(** *** The missing target *)


(** *** The embedding matrix *)




(** *** The reported result *)

(** C10. When an attack returns, [original] is the token sequence the first
    instance had before the attack, [final] has one entry per processed
    instance, and [outputs] is what the model answers on the last processed
    instance with its final tokens: one sequence and one output, whatever
    the number of instances. *)
Theorem attack_result_first_original_last_outputs :
  (forall inputs ignore w r w',
      attack_from_json inputs ignore w = (Some (Ok r), w') ->
      exists first k inst_k toks_k,
        json_to_labeled_instances inputs !! 0 = Some first /\
        original r = tokens first /\
        json_to_labeled_instances inputs !! k = Some inst_k /\
        length (final r) = S k /\
        list.last (final r) = Some toks_k /\
        result_outputs r =
          (get_gradients {| tokens := toks_k; labels := labels inst_k |}).2) /\
  (forall inputs ignore target tw w r w',
      targeted_attack_from_json inputs ignore (Some target) tw w = (Some (Ok r), w') ->
      let insts := predictions_to_labeled_instances (_json_to_instance inputs)
                     {| clusters := None; raw := words_output target |} in
      exists first k inst_k toks_k,
        insts !! 0 = Some first /\
        original r = tokens first /\
        insts !! k = Some inst_k /\
        length (final r) = S k /\
        list.last (final r) = Some toks_k /\
        result_outputs r =
          (get_gradients {| tokens := toks_k; labels := labels inst_k |}).2).
Proof.
  split.
  - intros inputs ignore w r w'. unfold attack_from_json.
    intros (u & w1 & _ & H)%M_bind_Ok_inv.
    exact (run_attack_inv _ _ _ _ _ _ _ _ H).
  - intros inputs ignore target tw w r w'. unfold targeted_attack_from_json.
    intros (u & w1 & _ & H)%M_bind_Ok_inv.
    exact (run_attack_inv _ _ _ _ _ _ _ _ H).
Qed.

End HotflipProperties.


(** ** A vocabulary without alphanumeric token *)

Lemma argmax_all_neg_inf (l : list score) :
  l <> [] -> (forall k w, l !! k = Some w -> w = NegInf) -> argmax l = Ok 0.
Proof.
  intros Hne Hall.
  destruct (argmax_nonempty l Hne) as [r Hr]. rewrite Hr. f_equal.
  apply argmax_first_max in Hr as (v & Hv & _ & Hfirst).
  destruct r as [|r]; [reflexivity|]. exfalso.
  destruct l as [|w0 l]; [congruence|].
  assert (H0 : score_ltb w0 v = true) by (apply (Hfirst 0 w0); [lia | reflexivity]).
  rewrite (Hall 0 w0 eq_refl), (Hall _ _ Hv) in H0. discriminate.
Qed.

(** C6. When [str.isalnum] rejects every token of the vocabulary, every id
    is an invalid replacement, every score is set to minus infinity, and
    [_first_order_taylor] returns the first id, 0, which is itself in the
    invalid-replacement list: the replacement is not alphanumeric. *)
Theorem first_order_taylor_all_invalid (isalnum : string -> bool)
    (vocab : vocabulary) g (E : matrix) t s :
  length E = length vocab ->
  t < length E ->
  Forall (fun row => length row = length g) E ->
  (forall tok, tok ∈ vocab -> isalnum tok = false) ->
  _first_order_taylor (invalid_replacement_indices isalnum vocab) g E t s = Ok 0 /\
  (0 ∈ invalid_replacement_indices isalnum vocab) /\
  (exists tok, vocab !! 0 = Some tok /\ isalnum tok = false).
Proof.
  intros Hlen Ht Hshape Hall.
  assert (Hinv : forall k, k < length E -> k ∈ invalid_replacement_indices isalnum vocab).
  { intros k Hk. apply invalid_replacement_indices_spec.
    destruct (lookup_lt_is_Some_2 vocab k) as [tok Htok]; [lia|].
    exists tok. split; [exact Htok|]. apply Hall. apply list_elem_of_lookup. eauto. }
  assert (Hrange : Forall (fun i => i < length E) (invalid_replacement_indices isalnum vocab)).
  { apply Forall_forall. intros k (tok & Hk & _)%invalid_replacement_indices_spec.
    rewrite Hlen. eapply lookup_lt_Some; eauto. }
  destruct (lookup_lt_is_Some_2 E t Ht) as [e He].
  split; [|split].
  - rewrite (first_order_taylor_argmax _ _ _ _ _ _ He Hshape Hrange).
    apply argmax_all_neg_inf.
    + intros Hnil. apply (f_equal length) in Hnil.
      rewrite taylor_scores_length in Hnil. simpl in Hnil. lia.
    + intros k w Hk.
      assert (Hklt : k < length E).
      { rewrite <- (taylor_scores_length (invalid_replacement_indices isalnum vocab) g E e s).
        eapply lookup_lt_Some; eauto. }
      destruct (lookup_lt_is_Some_2 E k Hklt) as [Ek HEk].
      rewrite (taylor_scores_lookup _ g E e s k Ek HEk) in Hk.
      rewrite decide_True in Hk by (apply Hinv; exact Hklt). congruence.
  - apply Hinv. lia.
  - apply invalid_replacement_indices_spec. apply Hinv. lia.
Qed.

(** * Concrete runs

    The properties above, at runs of the two small predictors. *)


Lemma untargeted_stop_rule_witness :
  loop_body (P := demo_coref) Untargeted tt (Some (outputs coref_start)) coref_start
      coref_world =
    (Some (Ok (Flipped (flipped_state coref_start 1 "left") false)),
     flipped_world coref_world coref_start 1 "left") /\
  (exists cl0,
     original_clusters (Some (outputs coref_start)) = Ok cl0 /\
     (false = true <-> ~ (forall c, c ∈ cl0 <-> c ∈ [[(0, 0); (2, 2)]]))) /\
  attack_loop (P := demo_coref) 2 Untargeted tt (Some (outputs coref_start)) coref_start
      coref_world =
    attack_loop (P := demo_coref) 1 Untargeted tt (Some (outputs coref_start))
      (flipped_state coref_start 1 "left") (flipped_world coref_world coref_start 1 "left").
Proof.
  assert (H : loop_body (P := demo_coref) Untargeted tt (Some (outputs coref_start))
                coref_start coref_world =
              (Some (Ok (Flipped (flipped_state coref_start 1 "left") false)),
               flipped_world coref_world coref_start 1 "left"))
    by (vm_compute; reflexivity).
  split; [exact H|]. split.
  - exact (proj2 (untargeted_stop_rule (P := demo_coref) _ _ _ _ _ _ _ 1 H)).
  - exact (proj1 (untargeted_stop_rule (P := demo_coref) _ _ _ _ _ _ _ 1 H)).
Defined.

Lemma flipped_grows_by_one_witness :
  (loop_body (P := demo_classifier) Untargeted 1 None demo_start demo_world =
     (Some (Ok (Flipped (flipped_state demo_start 0 "bad") true)),
      flipped_world demo_world demo_start 0 "bad") /\
   exists index,
     flipped (flipped_state demo_start 0 "bad") = flipped demo_start ++ [index] /\
     (index ∉ flipped demo_start) /\
     ~ covered (clusters (outputs demo_start)) index) /\
  (attack_instance (P := demo_classifier) Untargeted [] default_ignore_tokens None None
     demo_instance demo_world =
     (Some (Ok (flipped_state demo_start 0 "bad", None)),
      {| token_embedding := Some demo_embedding;
         trace := [EvGradients ["good"; "film"; "."]; EvSetToken 0 "bad";
                   EvGradients ["bad"; "film"; "."]]%string |}) /\
   exists added evs,
     flipped (flipped_state demo_start 0 "bad") =
       initial_flipped Untargeted default_ignore_tokens None (tokens demo_instance) ++ added /\
     NoDup (flipped (flipped_state demo_start 0 "bad")) /\
     [EvGradients ["good"; "film"; "."]; EvSetToken 0 "bad";
      EvGradients ["bad"; "film"; "."]]%string = trace demo_world ++ evs /\
     length added = flips evs).
Proof.
  split.
  - assert (H : loop_body (P := demo_classifier) Untargeted 1 None demo_start demo_world =
                (Some (Ok (Flipped (flipped_state demo_start 0 "bad") true)),
                 flipped_world demo_world demo_start 0 "bad"))
      by (vm_compute; reflexivity).
    split; [exact H|].
    exact (proj1 (@flipped_grows_by_one demo_classifier) _ _ _ _ _ _ _ _ H).
  - assert (H : attack_instance (P := demo_classifier) Untargeted [] default_ignore_tokens
                  None None demo_instance demo_world =
                (Some (Ok (flipped_state demo_start 0 "bad", None)),
                 {| token_embedding := Some demo_embedding;
                    trace := [EvGradients ["good"; "film"; "."]; EvSetToken 0 "bad";
                              EvGradients ["bad"; "film"; "."]]%string |}))
      by (vm_compute; reflexivity).
    split; [exact H|].
    exact (proj2 (@flipped_grows_by_one demo_classifier) _ _ _ _ _ _ _ _ _ _ H).
Defined.

Lemma attack_halts_within_length_witness :
  (attack_from_json (P := demo_classifier) [["good"; "film"; "."]%string] None fresh_world).1
    <> None /\
  (targeted_attack_from_json (P := demo_classifier) [["bad"; "film"; "."]%string] None
     (Some "positive"%string) None fresh_world).1 <> None /\
  (attack_instance (P := demo_classifier) Untargeted [] default_ignore_tokens None None
     demo_instance demo_world =
     (Some (Ok (flipped_state demo_start 0 "bad", None)),
      {| token_embedding := Some demo_embedding;
         trace := [EvGradients ["good"; "film"; "."]; EvSetToken 0 "bad";
                   EvGradients ["bad"; "film"; "."]]%string |}) /\
   exists evs,
     [EvGradients ["good"; "film"; "."]; EvSetToken 0 "bad";
      EvGradients ["bad"; "film"; "."]]%string = trace demo_world ++ evs /\
     flips evs <= length (tokens demo_instance)) /\
  attack_loop (P := demo_classifier) 1 Untargeted 0 None
    (start_state (P := demo_classifier) Untargeted default_ignore_tokens None dot_instance)
    demo_world =
    (Some (Ok (start_state (P := demo_classifier) Untargeted default_ignore_tokens None
                 dot_instance, StoppedExhausted)), demo_world).
Proof.
  destruct (@attack_halts_within_length demo_classifier) as (H1 & H2 & H3 & H4 & _).
  split; [apply H1|]. split; [apply H2|]. split.
  - assert (H : attack_instance (P := demo_classifier) Untargeted [] default_ignore_tokens
                  None None demo_instance demo_world =
                (Some (Ok (flipped_state demo_start 0 "bad", None)),
                 {| token_embedding := Some demo_embedding;
                    trace := [EvGradients ["good"; "film"; "."]; EvSetToken 0 "bad";
                              EvGradients ["bad"; "film"; "."]]%string |}))
      by (vm_compute; reflexivity).
    split; [exact H|]. exact (H3 _ _ _ _ _ _ _ _ _ _ H).
  - apply H4.
    + discriminate.
    + intros k Hk. apply list_elem_of_singleton in Hk as ->. simpl. lia.
    + intros k [].
    + intros k Hk. left. simpl in Hk.
      assert (k = 0) as -> by lia. apply list_elem_of_singleton. reflexivity.
Defined.

Lemma premask_rule_witness :
  (1 ∈ initial_flipped Targeted default_ignore_tokens (Some "bad"%string)
         ["bad"; "film"]%string) /\
  attack_instance (P := demo_classifier) Targeted [] default_ignore_tokens
    (Some "film"%string) None demo_target_instance demo_world =
    (Some (Ok (flipped_state demo_word_start 1 "good", None)),
     {| token_embedding := Some demo_embedding;
        trace := [EvGradients ["bad"; "film"; "."]; EvSetToken 1 "good";
                  EvGradients ["bad"; "good"; "."]]%string |}) /\
  (0 ∈ flipped (flipped_state demo_word_start 1 "good")) /\
  tokens (current_instance (flipped_state demo_word_start 1 "good")) !! 0
    = Some "bad"%string.
Proof.
  destruct (@premask_rule demo_classifier) as [Hmask Hrun].
  split.
  - apply Hmask. exists "film"%string. split; [reflexivity | discriminate].
  - assert (H : attack_instance (P := demo_classifier) Targeted [] default_ignore_tokens
                  (Some "film"%string) None demo_target_instance demo_world =
                (Some (Ok (flipped_state demo_word_start 1 "good", None)),
                 {| token_embedding := Some demo_embedding;
                    trace := [EvGradients ["bad"; "film"; "."]; EvSetToken 1 "good";
                              EvGradients ["bad"; "good"; "."]]%string |}))
      by (vm_compute; reflexivity).
    split; [exact H|].
    apply (Hrun _ _ _ _ _ _ _ _ _ H 0 "bad"%string); [reflexivity | discriminate].
Defined.



Lemma attack_result_first_original_last_outputs_witness :
  attack_from_json (P := demo_classifier) demo_two_sentences None demo_world =
    (Some (Ok demo_two_result), demo_two_world) /\
  exists first k inst_k toks_k,
    json_to_labeled_instances (Predictor := demo_classifier) demo_two_sentences !! 0
      = Some first /\
    ["good"; "film"; "."]%string = tokens first /\
    json_to_labeled_instances (Predictor := demo_classifier) demo_two_sentences !! k
      = Some inst_k /\
    2 = S k /\
    Some ["good"; "bad"; "good"]%string = Some toks_k /\
    {| clusters := None; raw := 1 |} =
      (get_gradients (Predictor := demo_classifier)
         {| tokens := toks_k; labels := labels inst_k |}).2.
Proof.
  assert (H : attack_from_json (P := demo_classifier) demo_two_sentences None demo_world =
              (Some (Ok demo_two_result), demo_two_world))
    by (vm_compute; reflexivity).
  split; [exact H|].
  exact (proj1 (@attack_result_first_original_last_outputs demo_classifier) _ _ _ _ _ H).
Defined.

(** * Where the specification and the code part *)

(** C5. On an instance without tokens the gradient list is empty and no
    position is eligible, yet the loop does not leave quietly:
    [numpy.argmax] of the empty list of priorities raises [ValueError] at
    line 149, before the test of line 151 that takes the exhaustion exit.
    The attack on the one-sentence input with that instance raises it
    too. *)
Lemma attack_empty_sequence_raises :
  eligible (length (tokens empty_instance))
    (initial_flipped Untargeted default_ignore_tokens None (tokens empty_instance)) = [] /\
  (attack_loop (P := demo_classifier) 1 Untargeted 0 None
     (start_state (P := demo_classifier) Untargeted default_ignore_tokens None empty_instance)
     demo_world).1 = Some (Raise ValueError) /\
  (attack_from_json (P := demo_classifier) [[]] None fresh_world).1
    = Some (Raise ValueError).
Proof. vm_compute. auto. Qed.



Lemma first_order_taylor_all_invalid_witness :
  length [[0]; [1]; [2]]%Z = length ["@@PADDING@@"; "@@UNKNOWN@@"; "."]%string /\
  _first_order_taylor
    (invalid_replacement_indices ascii_isalnum ["@@PADDING@@"; "@@UNKNOWN@@"; "."]%string)
    [1]%Z [[0]; [1]; [2]]%Z 1 (-1) = Ok 0 /\
  (0 ∈ invalid_replacement_indices ascii_isalnum
         ["@@PADDING@@"; "@@UNKNOWN@@"; "."]%string) /\
  (exists tok, ["@@PADDING@@"; "@@UNKNOWN@@"; "."]%string !! 0 = Some tok /\
               ascii_isalnum tok = false).
Proof.
  split; [reflexivity|].
  apply (first_order_taylor_all_invalid ascii_isalnum
           ["@@PADDING@@"; "@@UNKNOWN@@"; "."]%string [1]%Z [[0]; [1]; [2]]%Z 1 (-1)).
  - reflexivity.
  - simpl. lia.
  - repeat constructor.
  - intros tok Hin. apply list_elem_of_In in Hin. simpl in Hin.
    destruct Hin as [<-|[<-|[<-|[]]]]; reflexivity.
Defined.

(** With the target word ".", the full stop at position 1 is in the ignore
    list and yet is not pre-masked: the targeted attack replaces it. *)
Lemma target_word_in_ignore_list_not_premasked :
  ("."%string ∈ default_ignore_tokens) /\
  ["bad"; "."]%string !! 1 = Some "."%string /\
  (1 ∉ initial_flipped Targeted default_ignore_tokens (Some "."%string)
         ["bad"; "."]%string) /\
  (attack_instance (P := demo_classifier) Targeted [] default_ignore_tokens
     (Some "."%string) None {| tokens := ["bad"; "."]%string; labels := 1 |} demo_world).1 =
    Some (Ok (flipped_state
                (start_state (P := demo_classifier) Targeted default_ignore_tokens
                   (Some "."%string) {| tokens := ["bad"; "."]%string; labels := 1 |})
                1 "good", None)).
Proof.
  split; [apply list_elem_of_In; simpl; tauto|].
  split; [reflexivity|].
  split.
  { intros (text & Hk & Hp)%initial_flipped_spec.
    injection Hk as <-. apply Hp. reflexivity. }
  vm_compute. reflexivity.
Qed.

(** * Further properties of the selector and of the choice of position *)

Lemma dot_self_nonneg (g : vector) : (0 <= dot g g)%Z.
Proof.
  unfold dot. induction g as [|x g IH]; simpl; [lia|].
  pose proof (Z.square_nonneg x). lia.
Qed.

Lemma positions_where_sorted {A} (p : A -> bool) (xs : list A) : forall i,
  StronglySorted lt (positions_where p i xs).
Proof.
  induction xs as [|x xs IH]; intros i; simpl; [constructor|].
  destruct (p x); [|apply IH].
  constructor; [apply IH|].
  apply Forall_forall. intros k Hk.
  apply positions_where_elem in Hk as (y & Hle & _). lia.
Qed.

(** [__init__]: whatever [str.isalnum] answers on the tokens, the
    invalid-replacement list holds exactly the ids of the vocabulary whose
    token it rejects, each once, in increasing order. *)
Theorem invalid_replacement_indices_sorted_exact (isalnum : string -> bool)
    (vocab : vocabulary) :
  (forall k, k ∈ invalid_replacement_indices isalnum vocab <->
             exists tok, vocab !! k = Some tok /\ isalnum tok = false) /\
  Forall (fun k => k < get_vocab_size vocab)
    (invalid_replacement_indices isalnum vocab) /\
  StronglySorted lt (invalid_replacement_indices isalnum vocab).
Proof.
  split; [intros k; apply invalid_replacement_indices_spec|].
  split; [|apply positions_where_sorted].
  apply Forall_forall. intros k (tok & Hk & _)%invalid_replacement_indices_spec.
  eapply lookup_lt_Some; eauto.
Qed.

(** [_first_order_taylor] returns an id exactly when the token id is a row
    of the matrix, every row has the width of the gradient and every invalid
    id is a row; the id it returns is a row of the matrix. *)
Theorem first_order_taylor_returns_iff invalid g (E : matrix) t s :
  ((exists r, _first_order_taylor invalid g E t s = Ok r) <->
   t < length E /\
   Forall (fun row => length row = length g) E /\
   Forall (fun i => i < length E) invalid) /\
  (forall r, _first_order_taylor invalid g E t s = Ok r -> r < length E).
Proof.
  split; [split|].
  - intros [r Hr]. apply first_order_taylor_Ok_inv in Hr as (e & He & Hshape & Hinv).
    split; [eapply lookup_lt_Some; eauto | auto].
  - intros (Ht & Hshape & Hinv).
    destruct (lookup_lt_is_Some_2 E t Ht) as [e He].
    rewrite (first_order_taylor_argmax _ _ _ _ _ _ He Hshape Hinv).
    apply argmax_nonempty. intros Hnil. apply (f_equal length) in Hnil.
    rewrite taylor_scores_length in Hnil. simpl in Hnil. lia.
  - intros r Hr.
    destruct (first_order_taylor_Ok_inv _ _ _ _ _ _ Hr) as (e & He & Hshape & Hinv).
    rewrite (first_order_taylor_argmax _ _ _ _ _ _ He Hshape Hinv) in Hr.
    apply argmax_first_max, is_first_max_lt in Hr.
    rewrite taylor_scores_length in Hr. exact Hr.
Qed.

Lemma mask_positions_raise (idxs : list nat) : forall (mag : list score) e,
  mask_positions mag idxs = Raise e ->
  e = IndexError /\ exists k, k ∈ idxs /\ length mag <= k.
Proof.
  induction idxs as [|i idxs IH]; intros mag e; simpl; [discriminate|].
  destruct (i <? length mag) eqn:Hi.
  - intros H. apply IH in H as (-> & k & Hk & Hle). rewrite length_insert in Hle.
    split; [reflexivity|]. exists k. split; [apply elem_of_cons; auto | exact Hle].
  - intros [= <-]. apply Nat.ltb_ge in Hi. split; [reflexivity|].
    exists i. split; [apply elem_of_cons; auto | exact Hi].
Qed.

(** The priorities [numpy.argmax] sees: [-1] at a masked position, the
    squared norm of the gradient elsewhere. *)
Lemma select_position_priorities (grad : list vector) cl flipped sel :
  select_position grad cl flipped = Ok sel ->
  exists m2 r v,
    length m2 = length grad /\
    is_first_max m2 r /\ m2 !! r = Some v /\
    sel = (if score_eqb v (Fin (-1)) then None else Some r) /\
    (forall k, k ∈ flipped \/ covered cl k -> k < length grad) /\
    (forall k gk, grad !! k = Some gk ->
       (k ∈ flipped \/ covered cl k -> m2 !! k = Some (Fin (-1))) /\
       (k ∉ flipped -> ~ covered cl k -> m2 !! k = Some (Fin (dot gk gk)))).
Proof.
  intros H.
  destruct (select_position_inv _ _ _ _ H)
    as (m2' & r' & v' & _ & Hf & Hc & Hmask & _).
  unfold select_position in H.
  apply except_bind_Ok_inv in H as (m1 & H1 & H).
  apply except_bind_Ok_inv in H as (m2 & H2 & H).
  apply except_bind_Ok_inv in H as (r & Hr & H).
  apply argmax_first_max in Hr.
  destruct (m2 !! r) as [v|] eqn:Hv; [|discriminate].
  exists m2, r, v.
  split.
  { assert (Hl1 : length m1 = length grad)
      by (rewrite (mask_positions_length _ _ _ H1); apply length_map).
    destruct cl as [c|]; [|congruence].
    rewrite (mask_positions_length _ _ _ H2). exact Hl1. }
  split; [exact Hr|]. split; [exact Hv|].
  split; [destruct (score_eqb v (Fin (-1))); congruence|].
  split; [intros k [Hk|Hk]; auto|].
  intros k gk Hk.
  assert (H1k : m1 !! k = if decide (k ∈ flipped) then Some (Fin (-1))
                          else Some (Fin (dot gk gk))).
  { rewrite (mask_positions_lookup _ _ _ k H1).
    change (map ?f ?l) with (f <$> l). rewrite list_lookup_fmap, Hk.
    destruct (decide (k ∈ flipped)); reflexivity. }
  assert (H2k : m2 !! k = match cl with
                          | Some c => if decide (k ∈ cluster_positions c)
                                      then Some (Fin (-1)) else m1 !! k
                          | None => m1 !! k
                          end).
  { destruct cl as [c|]; [|congruence].
    rewrite (mask_positions_lookup _ _ _ k H2), H1k.
    destruct (decide (k ∈ cluster_positions c)); [|reflexivity].
    destruct (decide (k ∈ flipped)); reflexivity. }
  rewrite H2k, H1k. split.
  - intros [Hin|Hin].
    + rewrite decide_True by exact Hin.
      destruct cl as [c|]; [|reflexivity].
      destruct (decide (k ∈ cluster_positions c)); reflexivity.
    + destruct cl as [c|]; [|destruct Hin]. simpl in Hin.
      rewrite decide_True by exact Hin. reflexivity.
  - intros Hnf Hnc. rewrite decide_False by exact Hnf.
    destruct cl as [c|]; [|reflexivity]. simpl in Hnc.
    rewrite decide_False by exact Hnc. reflexivity.
Qed.

(** Lines 149-152: the loop is left as exhausted only when the gradient list
    is not empty and every one of its positions is flipped or covered by a
    cluster. *)
Theorem select_position_exhausted_only_if (grad : list vector) cl flipped :
  select_position grad cl flipped = Ok None ->
  grad <> [] /\
  forall k, k < length grad -> k ∈ flipped \/ covered cl k.
Proof.
  intros H.
  apply select_position_priorities in H
    as (m2 & r & v & Hlen & (v' & Hv' & Hmax & _) & Hv & Hsel & Hrange & Hprio).
  rewrite Hv in Hv'. injection Hv' as <-.
  destruct (score_eqb v (Fin (-1))) eqn:Heq; [|discriminate].
  apply score_eqb_eq in Heq. subst v.
  split.
  - intros ->. apply lookup_lt_Some in Hv. simpl in Hlen. lia.
  - intros k Hk.
    destruct (lookup_lt_is_Some_2 grad k Hk) as [gk Hgk].
    destruct (decide (k ∈ flipped)) as [Hf|Hf]; [left; exact Hf|].
    assert (Hdec : covered cl k \/ ~ covered cl k).
    { destruct cl as [c|]; simpl; [|tauto].
      destruct (decide (k ∈ cluster_positions c)); tauto. }
    destruct Hdec as [Hc|Hc]; [right; exact Hc|].
    exfalso. destruct (Hprio k gk Hgk) as [_ Hk2]. specialize (Hk2 Hf Hc).
    specialize (Hmax _ _ Hk2). simpl in Hmax. apply Z.ltb_ge in Hmax.
    pose proof (dot_self_nonneg gk). lia.
Qed.

Lemma select_position_masks_in_range (grad : list vector) cl flipped :
  (forall k, k ∈ flipped \/ covered cl k -> k < length grad) ->
  exists m2, length m2 = length grad /\
    select_position grad cl flipped =
    (r ← argmax m2;
     match m2 !! r with
     | Some v => if score_eqb v (Fin (-1)) then Ok None else Ok (Some r)
     | None => Raise IndexError
     end).
Proof.
  intros Hrange. unfold select_position.
  destruct (mask_positions (map (fun g => Fin (dot g g)) grad) flipped) as [m1|e] eqn:H1.
  2:{ apply mask_positions_raise in H1 as (_ & k & Hk & Hle).
      rewrite length_map in Hle. specialize (Hrange k (or_introl Hk)). lia. }
  assert (Hl1 : length m1 = length grad)
    by (rewrite (mask_positions_length _ _ _ H1); apply length_map).
  simpl. destruct cl as [c|]; simpl.
  - destruct (mask_positions m1 (cluster_positions c)) as [m2|e] eqn:H2.
    2:{ apply mask_positions_raise in H2 as (_ & k & Hk & Hle).
        specialize (Hrange k (or_intror Hk)). lia. }
    exists m2. split; [|reflexivity].
    rewrite (mask_positions_length _ _ _ H2). exact Hl1.
  - exists m1. split; [exact Hl1 | reflexivity].
Qed.

(** Lines 137-149: the choice of a position returns (a position or
    exhaustion) exactly when the gradient list is not empty and no flipped or
    cluster-covered position lies outside it; a masked position outside the
    list raises [IndexError], and an empty gradient list without such a
    position raises the [ValueError] of [numpy.argmax]. *)
Theorem select_position_returns_iff (grad : list vector) cl flipped :
  ((exists sel, select_position grad cl flipped = Ok sel) <->
   grad <> [] /\ forall k, k ∈ flipped \/ covered cl k -> k < length grad) /\
  ((exists k, (k ∈ flipped \/ covered cl k) /\ length grad <= k) ->
   select_position grad cl flipped = Raise IndexError) /\
  (grad = [] -> (forall k, ~ (k ∈ flipped \/ covered cl k)) ->
   select_position grad cl flipped = Raise ValueError).
Proof.
  split; [split|split].
  - intros [sel H].
    apply select_position_priorities in H
      as (m2 & r & v & Hlen & _ & Hv & _ & Hrange & _).
    split; [|exact Hrange].
    intros ->. apply lookup_lt_Some in Hv. simpl in Hlen. lia.
  - intros [Hne Hrange].
    destruct (select_position_masks_in_range grad cl flipped Hrange) as (m2 & Hlen & ->).
    destruct (argmax_nonempty m2) as [r Hr].
    { intros ->. destruct grad; [congruence | discriminate]. }
    rewrite Hr. simpl.
    destruct (lookup_lt_is_Some_2 m2 r) as [v ->].
    { apply argmax_first_max, is_first_max_lt in Hr. exact Hr. }
    destruct (score_eqb v (Fin (-1))); eauto.
  - intros (k & Hk & Hle). unfold select_position.
    destruct (mask_positions (map (fun g => Fin (dot g g)) grad) flipped) as [m1|e] eqn:H1.
    2:{ apply mask_positions_raise in H1 as [-> _]. reflexivity. }
    assert (Hl1 : length m1 = length grad)
      by (rewrite (mask_positions_length _ _ _ H1); apply length_map).
    apply mask_positions_Ok in H1 as [HF _]. rewrite length_map in HF.
    rewrite Forall_forall in HF. simpl.
    destruct Hk as [Hk|Hk]; [specialize (HF k Hk); lia|].
    destruct cl as [c|]; [|destruct Hk]. simpl in *.
    destruct (mask_positions m1 (cluster_positions c)) as [m2|e] eqn:H2.
    + apply mask_positions_Ok in H2 as [HF2 _]. rewrite Forall_forall in HF2.
      specialize (HF2 k Hk). lia.
    + apply mask_positions_raise in H2 as [-> _]. reflexivity.
  - intros -> Hnone.
    destruct (select_position_masks_in_range [] cl flipped) as (m2 & Hlen & ->).
    { intros k Hk. destruct (Hnone k Hk). }
    destruct m2; [reflexivity | discriminate].
Qed.

(** * Further properties of the attack *)

Section HotflipFurther.

Context {P : Predictor}.

Local Abbreviation Instance := (Instance Labels).
Local Abbreviation Outputs := (Outputs Raw).

(** An invariant established when the loop is entered and kept by every
    flipping pass holds of what [attack_instance] returns. *)
Lemma attack_instance_invariant (Inv : loop_state -> world -> Prop)
    m inputs ignore tw oo (inst : Instance) w st oo' w' :
  (forall fields oo1 st1 w1 st2 stop w2 index,
      Inv st1 w1 -> flip_step m fields oo1 st1 w1 st2 stop w2 index -> Inv st2 w2) ->
  (forall w1, extends w w1 [EvGradients (tokens inst)] ->
              Inv (start_state m ignore tw inst) w1) ->
  attack_instance m inputs ignore tw oo inst w = (Some (Ok (st, oo')), w') ->
  Inv st w'.
Proof.
  intros Hstep Hinit. unfold attack_instance.
  intros ([grads0 outputs0] & w1 & Hg & H)%M_bind_Ok_inv.
  apply call_get_gradients_inv in Hg as [Hg Hext].
  apply M_bind_Ok_inv in H as ([st1 ex] & w2 & Hloop & H).
  apply mret_Ok_inv in H as [[= -> ->] ->].
  eapply (attack_loop_invariant Inv) in Hloop as [Hinv _]; [exact Hinv| |].
  - intros. eapply Hstep; eauto.
  - specialize (Hinit w1 Hext). unfold start_state in Hinit.
    rewrite <- Hg in Hinit. exact Hinit.
Qed.

(** Lines 129-164: an attacked instance keeps its length; a position that
    is not in [flipped] at the end, and every pre-masked position, still
    holds its original token; any token that is not the original one is a
    token of the vocabulary; in [attack_from_json] a token of the ignore list
    is never replaced. *)
Theorem attack_instance_tokens m inputs ignore tw oo (inst : Instance) w st oo' w' :
  attack_instance m inputs ignore tw oo inst w = (Some (Ok (st, oo')), w') ->
  length (tokens (current_instance st)) = length (tokens inst) /\
  (forall k, k ∉ flipped st ->
             tokens (current_instance st) !! k = tokens inst !! k) /\
  (forall k, k ∈ initial_flipped m ignore tw (tokens inst) ->
             tokens (current_instance st) !! k = tokens inst !! k) /\
  (forall k tok, tokens (current_instance st) !! k = Some tok ->
                 tokens inst !! k = Some tok \/ tok ∈ vocab) /\
  (m = Untargeted ->
   forall k text, tokens inst !! k = Some text -> text ∈ ignore ->
                  tokens (current_instance st) !! k = Some text).
Proof.
  intros H.
  pose proof H as H0. apply attack_instance_inv in H0 as (w1 & _ & Hinv).
  assert (Hnew :
    (forall k, k ∉ flipped st -> tokens (current_instance st) !! k = tokens inst !! k) /\
    (forall k tok, tokens (current_instance st) !! k = Some tok ->
                   tokens inst !! k = Some tok \/ tok ∈ vocab)).
  { eapply (attack_instance_invariant
              (fun st _ =>
                 (forall k, k ∉ flipped st ->
                            tokens (current_instance st) !! k = tokens inst !! k) /\
                 (forall k tok, tokens (current_instance st) !! k = Some tok ->
                                tokens inst !! k = Some tok \/ tok ∈ vocab)));
      [| |exact H].
    - intros fields oo1 st1 w1' st2 stop w2 index [Hout Hvoc] Hfs.
      destruct (fs_taylor _ _ _ _ _ _ _ _ _ Hfs)
        as (old & g & emb & new_id & new_token & Hold & _ & _ & _ & Htok & Hcur & _).
      rewrite Hcur, (fs_flipped _ _ _ _ _ _ _ _ _ Hfs). simpl. split.
      + intros k Hk. rewrite list_lookup_insert_ne.
        * apply Hout. intros Hin. apply Hk. apply elem_of_app. left. exact Hin.
        * intros ->. apply Hk. apply elem_of_app. right.
          apply list_elem_of_singleton. reflexivity.
      + intros k tok Hk. apply list_lookup_insert_Some in Hk
          as [(-> & <- & _)|[Hne Hk]].
        * right. apply list_elem_of_lookup. eauto.
        * apply Hvoc. exact Hk.
    - intros w1' _. simpl. split; [reflexivity | auto]. }
  destruct Hnew as [Hout Hvoc].
  split; [exact (li_length _ _ _ _ _ Hinv)|].
  split; [exact Hout|].
  split; [exact (li_masked _ _ _ _ _ Hinv)|].
  split; [exact Hvoc|].
  intros -> k text Hk Hig.
  rewrite (li_masked _ _ _ _ _ Hinv k); [exact Hk|].
  apply initial_flipped_spec. exists text. auto.
Qed.

Lemma gradient_calls_app evs1 evs2 :
  gradient_calls (evs1 ++ evs2) = gradient_calls evs1 + gradient_calls evs2.
Proof. unfold gradient_calls. rewrite filter_app, length_app. reflexivity. Qed.

(** Lines 120 and 168: on an attacked instance the model is asked for
    gradients once before the loop and once after each substitution, never
    more than once per token plus one; the first request is on the original
    tokens, the last on the final ones. *)
Theorem attack_instance_gradient_calls m inputs ignore tw oo (inst : Instance)
    w st oo' w' :
  attack_instance m inputs ignore tw oo inst w = (Some (Ok (st, oo')), w') ->
  exists evs,
    trace w' = trace w ++ evs /\
    gradient_calls evs = S (flips evs) /\
    gradient_calls evs <= S (length (tokens inst)) /\
    head evs = Some (EvGradients (tokens inst)) /\
    list.last evs = Some (EvGradients (tokens (current_instance st))).
Proof.
  intros H.
  assert (Hnew : exists evs,
    trace w' = trace w ++ evs /\
    gradient_calls evs = S (flips evs) /\
    head evs = Some (EvGradients (tokens inst)) /\
    list.last evs = Some (EvGradients (tokens (current_instance st)))).
  { eapply (attack_instance_invariant
              (fun st w1 => exists evs,
                 trace w1 = trace w ++ evs /\
                 gradient_calls evs = S (flips evs) /\
                 head evs = Some (EvGradients (tokens inst)) /\
                 list.last evs = Some (EvGradients (tokens (current_instance st)))));
      [| |exact H].
    - intros fields oo1 st1 w1 st2 stop w2 index (evs & Htr & Hcount & Hhd & Hlast) Hfs.
      destruct (fs_taylor _ _ _ _ _ _ _ _ _ Hfs)
        as (old & g & emb & new_id & new_token & _ & _ & _ & _ & _ & _ & [_ Hext]).
      exists (evs ++ [EvSetToken index new_token;
                      EvGradients (tokens (current_instance st2))]).
      split; [rewrite Hext, Htr, app_assoc; reflexivity|].
      split.
      { rewrite gradient_calls_app, flips_app, Hcount.
        replace (gradient_calls [EvSetToken index new_token;
                                 EvGradients (tokens (current_instance st2))])
          with 1 by reflexivity.
        replace (flips [EvSetToken index new_token;
                        EvGradients (tokens (current_instance st2))])
          with 1 by reflexivity.
        lia. }
      split.
      + destruct evs as [|ev evs]; [discriminate | exact Hhd].
      + change [EvSetToken index new_token; EvGradients (tokens (current_instance st2))]
          with ([EvSetToken index new_token] ++
                [EvGradients (tokens (current_instance st2))]).
        rewrite app_assoc. apply last_snoc.
    - intros w1 [_ Hext]. exists [EvGradients (tokens inst)].
      split; [exact Hext|]. split; [reflexivity|]. split; reflexivity. }
  destruct Hnew as (evs & Htr & Hcount & Hhd & Hlast).
  exists evs. split; [exact Htr|]. split; [exact Hcount|].
  split; [|split; assumption].
  apply attack_instance_inv in H as (w1 & Hext1 & Hinv).
  destruct (li_flipped _ _ _ _ _ Hinv) as (added & evs0 & _ & Hext & Hflips & _ & Hmeas).
  pose proof (proj2 (extends_trans _ _ _ _ _ Hext1 Hext)) as Htr'.
  rewrite Htr in Htr'. apply app_inv_head in Htr'. subst evs.
  rewrite Hcount, flips_app, Hflips. simpl.
  pose proof (eligible_length (length (tokens inst))
                (initial_flipped m ignore tw (tokens inst))). lia.
Qed.

(** A loop that returns [StoppedChanged] took its last pass through a
    stopping check that held. *)
Lemma attack_loop_changed m fields oo : forall fuel st w st' w',
  attack_loop fuel m fields oo st w = (Some (Ok (st', StoppedChanged)), w') ->
  exists st0 w0 index, flip_step m fields oo st0 w0 st' true w' index.
Proof.
  induction fuel as [|fuel IH]; intros st w st' w' H; simpl in H; [discriminate|].
  apply M_bind_Ok_inv in H as (it & w1 & Hbody & H).
  destruct it as [|st1 [|]].
  - apply mret_Ok_inv in H as [[=] _].
  - apply loop_body_Flipped_inv in Hbody as [index Hfs].
    apply mret_Ok_inv in H as [[= ->] ->]. eauto.
  - eapply IH; eauto.
Qed.

(** Lines 149-152 and 176-182 (260-263 and 287-293): what the way the loop
    was left says about the final state.  Exhausted: every position is
    flipped or covered by a cluster.  Changed, without clusters in the final
    outputs: the relabelled final instance differs from the reference in
    [attack_from_json], and agrees with the target-labelled reference in
    [targeted_attack_from_json]; with clusters: their set differs from the
    snapshot's (or, targeted only, the fields agree with the reference). *)
Theorem attack_loop_exit_reason m fields oo fuel st w st' ex w' :
  attack_loop fuel m fields oo st w = (Some (Ok (st', ex)), w') ->
  match ex with
  | StoppedExhausted =>
      grads st' <> [] /\
      forall k, k < length (grads st') ->
                k ∈ flipped st' \/ covered (clusters (outputs st')) k
  | StoppedChanged =>
      exists labeled,
        predictions_to_labeled_instances (current_instance st') (outputs st') !! 0
          = Some labeled /\
        match m, clusters (outputs st') with
        | Untargeted, None => instance_has_changed labeled fields = true
        | Targeted, None => instance_has_changed labeled fields = false
        | Untargeted, Some cl =>
            exists cl0, original_clusters oo = Ok cl0 /\
                        ~ (forall c, c ∈ cl0 <-> c ∈ cl)
        | Targeted, Some cl =>
            exists cl0, original_clusters oo = Ok cl0 /\
              (instance_has_changed labeled fields = false \/
               ~ (forall c, c ∈ cl0 <-> c ∈ cl))
        end
  end.
Proof.
  intros H. destruct ex.
  - apply attack_loop_changed in H as (st0 & w0 & index & Hfs).
    destruct (fs_stop _ _ _ _ _ _ _ _ _ Hfs) as (labeled & Hlab & Hstop).
    exists labeled. split; [exact Hlab|].
    destruct m.
    + apply stop_check_untargeted in Hstop.
      destruct (clusters (outputs st')) as [cl|]; [|congruence].
      destruct Hstop as (cl0 & H0 & Hd). exists cl0. split; [exact H0|].
      apply clusters_differ_spec. congruence.
    + apply stop_check_targeted in Hstop.
      destruct (clusters (outputs st')) as [cl|].
      * destruct Hstop as (cl0 & H0 & Hd). exists cl0. split; [exact H0|].
        symmetry in Hd. apply orb_true_iff in Hd as [Hd|Hd].
        -- right. apply clusters_differ_spec. exact Hd.
        -- left. apply negb_true_iff. exact Hd.
      * apply negb_true_iff. congruence.
  - eapply (attack_loop_invariant (fun _ _ => True)) in H as [_ Hsel]; auto.
    apply select_position_exhausted_only_if. apply Hsel. reflexivity.
Qed.

(** The instances are attacked in order; [final] holds one sequence per
    attacked instance, each of the length of its instance; instances are left
    out only after one whose final outputs carry clusters. *)
Lemma attack_instances_processed m inputs ignore tw :
  forall insts oo acc last w ft lo w',
    attack_instances m inputs ignore tw insts oo acc last w = (Some (Ok (ft, lo)), w') ->
    exists done,
      ft = acc ++ done /\
      length done <= length insts /\
      Forall2 (fun toks (inst : Instance) => length toks = length (tokens inst))
        done (take (length done) insts) /\
      (length done < length insts -> exists o, lo = Some o /\ is_Some (clusters o)).
Proof.
  induction insts as [|inst rest IH]; intros oo acc last w ft lo w' H; simpl in H.
  - apply mret_Ok_inv in H as [[= -> ->] _]. exists [].
    rewrite app_nil_r. simpl. split; [reflexivity|]. split; [lia|].
    split; [constructor | lia].
  - apply M_bind_Ok_inv in H as ([st oo1] & w1 & Hinst & H).
    apply attack_instance_inv in Hinst as (w0 & _ & Hinv).
    pose proof (li_length _ _ _ _ _ Hinv) as Hlen.
    destruct (clusters (outputs st)) as [cl|] eqn:Hcl.
    + apply mret_Ok_inv in H as [[= -> ->] _].
      exists [tokens (current_instance st)]. simpl.
      split; [reflexivity|]. split; [lia|].
      split; [repeat constructor; exact Hlen|].
      intros _. exists (outputs st). rewrite Hcl. eauto.
    + apply IH in H as (done & -> & Hle & Hall & Hskip).
      exists (tokens (current_instance st) :: done). simpl.
      split; [rewrite <- app_assoc; reflexivity|]. split; [lia|].
      split; [constructor; assumption|].
      intros Hlt. apply Hskip. lia.
Qed.

Lemma run_attack_processed m inputs ignore tw (insts : list Instance) w r w' :
  run_attack m inputs ignore tw insts w = (Some (Ok r), w') ->
  length (final r) <= length insts /\
  Forall2 (fun toks (inst : Instance) => length toks = length (tokens inst))
    (final r) (take (length (final r)) insts) /\
  (length (final r) < length insts -> is_Some (clusters (result_outputs r))).
Proof.
  unfold run_attack.
  intros (first & w1 & _ & H)%M_bind_Ok_inv.
  apply M_bind_Ok_inv in H as ([ft lo] & w2 & Hinsts & H).
  apply M_bind_Ok_inv in H as (outs & w3 & Houts & H).
  apply lift_Ok_inv in Houts as [Houts ->].
  apply mret_Ok_inv in H as [-> ->]. simpl.
  apply attack_instances_processed in Hinsts as (done & -> & Hle & Hall & Hskip).
  simpl. split; [exact Hle|]. split; [exact Hall|].
  intros Hlt. destruct (Hskip Hlt) as (o & -> & Ho).
  injection Houts as <-. exact Ho.
Qed.

(** Lines 115 and 184-186 (221 and 295-297): [final] has at most one
    sequence per labeled instance, the sequences follow the instances in
    order and keep their lengths, and there are fewer sequences than
    instances only when the reported outputs carry clusters. *)
Theorem attack_final_per_instance :
  (forall inputs ignore w r w',
      attack_from_json inputs ignore w = (Some (Ok r), w') ->
      length (final r) <= length (json_to_labeled_instances inputs) /\
      Forall2 (fun toks (inst : Instance) => length toks = length (tokens inst))
        (final r) (take (length (final r)) (json_to_labeled_instances inputs)) /\
      (length (final r) < length (json_to_labeled_instances inputs) ->
       is_Some (clusters (result_outputs r)))) /\
  (forall inputs ignore target tw w r w',
      targeted_attack_from_json inputs ignore (Some target) tw w = (Some (Ok r), w') ->
      forall insts,
        insts = predictions_to_labeled_instances (_json_to_instance inputs)
                  {| clusters := None; raw := words_output target |} ->
        length (final r) <= length insts /\
        Forall2 (fun toks (inst : Instance) => length toks = length (tokens inst))
          (final r) (take (length (final r)) insts) /\
        (length (final r) < length insts -> is_Some (clusters (result_outputs r)))).
Proof.
  split.
  - intros inputs ignore w r w'. unfold attack_from_json.
    intros (u & w1 & _ & H)%M_bind_Ok_inv.
    exact (run_attack_processed _ _ _ _ _ _ _ _ H).
  - intros inputs ignore target tw w r w'. unfold targeted_attack_from_json.
    intros (u & w1 & _ & H)%M_bind_Ok_inv insts ->.
    exact (run_attack_processed _ _ _ _ _ _ _ _ H).
Qed.

(** Lines 111-112 and 217-218: when the predictor yields no labeled instance
    the attack does not return an empty result: indexing the first instance
    raises [IndexError], before any gradient is computed. *)
Theorem attack_without_instances_raises :
  (forall inputs ignore w emb,
      json_to_labeled_instances inputs = [] ->
      token_embedding w = Some emb ->
      attack_from_json inputs ignore w = (Some (Raise IndexError), w)) /\
  (forall inputs ignore target tw w emb,
      predictions_to_labeled_instances (_json_to_instance inputs)
        {| clusters := None; raw := words_output target |} = [] ->
      token_embedding w = Some emb ->
      targeted_attack_from_json inputs ignore (Some target) tw w
        = (Some (Raise IndexError), w)).
Proof.
  split.
  - intros inputs ignore w emb Hnil Hemb.
    unfold attack_from_json, mbind, M_bind.
    destruct (ensure_initialized w) as [r1 w1] eqn:Hinit.
    apply ensure_initialized_trace in Hinit as (_ & _ & Hsome & _).
    destruct (Hsome emb Hemb) as [-> ->].
    unfold run_attack. rewrite Hnil. reflexivity.
  - intros inputs ignore target tw w emb Hnil Hemb.
    unfold targeted_attack_from_json, mbind, M_bind.
    destruct (ensure_initialized w) as [r1 w1] eqn:Hinit.
    apply ensure_initialized_trace in Hinit as (_ & _ & Hsome & _).
    destruct (Hsome emb Hemb) as [-> ->].
    unfold run_attack. rewrite Hnil. reflexivity.
Qed.

(** *** The embedding matrix is built once *)











(** *** The inputs of the embedding stage *)




(** Lines 121-127 against 177-179 (227-233 against 288-290):
    [original_outputs] is bound only when the outputs computed before the
    loop carry clusters.  On an instance attacked without a snapshot whose
    first outputs carry none, a pass whose new outputs carry clusters cannot
    complete (reading the snapshot raises), so an attack that returns has
    left no snapshot and ends on outputs without clusters. *)
Theorem attack_instance_without_snapshot m inputs ignore tw (inst : Instance) w st oo' w' :
  clusters (get_gradients inst).2 = None ->
  attack_instance m inputs ignore tw None inst w = (Some (Ok (st, oo')), w') ->
  oo' = None /\ clusters (outputs st) = None.
Proof.
  intros Hnone. unfold attack_instance.
  intros ([grads0 outputs0] & w1 & Hg & H)%M_bind_Ok_inv.
  apply call_get_gradients_inv in Hg as [Hg _].
  rewrite <- Hg in Hnone. simpl in Hnone. rewrite Hnone in H.
  apply M_bind_Ok_inv in H as ([st1 ex] & w2 & Hloop & H).
  apply mret_Ok_inv in H as [[= -> ->] ->].
  split; [reflexivity|].
  eapply (attack_loop_invariant (fun st _ => clusters (outputs st) = None))
    in Hloop as [Hinv _]; [exact Hinv| |exact Hnone].
  intros sta wa stb stop wb index _ Hfs.
  destruct (fs_stop _ _ _ _ _ _ _ _ _ Hfs) as (labeled & _ & Hstop).
  destruct (clusters (outputs stb)) as [cl|] eqn:Hcl; [|reflexivity].
  exfalso. destruct m.
  - apply stop_check_untargeted in Hstop. rewrite Hcl in Hstop.
    destruct Hstop as (cl0 & H0 & _). discriminate.
  - apply stop_check_targeted in Hstop. rewrite Hcl in Hstop.
    destruct Hstop as (cl0 & H0 & _). discriminate.
Qed.

End HotflipFurther.

(** * Concrete runs for the further properties *)

Lemma invalid_replacement_indices_sorted_exact_witness :
  invalid_replacement_indices ascii_isalnum demo_vocab = [0; 1; 5] /\
  (5 ∈ invalid_replacement_indices ascii_isalnum demo_vocab <->
   exists tok, demo_vocab !! 5 = Some tok /\ ascii_isalnum tok = false) /\
  StronglySorted lt (invalid_replacement_indices ascii_isalnum demo_vocab).
Proof.
  split; [reflexivity|].
  destruct (invalid_replacement_indices_sorted_exact ascii_isalnum demo_vocab)
    as (Hmem & _ & Hsorted).
  split; [apply Hmem | exact Hsorted].
Defined.

Lemma first_order_taylor_returns_iff_witness :
  (2 < length demo_table /\
   Forall (fun row => length row = length [-3; 0]%Z) demo_table /\
   Forall (fun i => i < length demo_table) [0; 1; 5]) /\
  (exists r, _first_order_taylor [0; 1; 5] [-3; 0]%Z demo_table 2 (-1) = Ok r) /\
  (_first_order_taylor [0; 1; 5] [-3; 0]%Z demo_table 2 (-1) = Ok 3 -> 3 < length demo_table).
Proof.
  assert (H : 2 < length demo_table /\
              Forall (fun row => length row = length [-3; 0]%Z) demo_table /\
              Forall (fun i => i < length demo_table) [0; 1; 5]).
  { split; [simpl; lia|]. split; repeat constructor. }
  split; [exact H|].
  destruct (first_order_taylor_returns_iff [0; 1; 5] [-3; 0]%Z demo_table 2 (-1))
    as [Hiff Hrange].
  split; [apply Hiff; exact H | apply Hrange].
Defined.

Lemma select_position_exhausted_only_if_witness :
  select_position [[5; 5]]%Z (Some [[(0, 0)]]) [] = Ok None /\
  [[5; 5]]%Z <> [] /\
  forall k, k < 1 -> k ∈ [] \/ covered (Some [[(0, 0)]]) k.
Proof.
  assert (H : select_position [[5; 5]]%Z (Some [[(0, 0)]]) [] = Ok None)
    by (vm_compute; reflexivity).
  split; [exact H|].
  exact (select_position_exhausted_only_if _ _ _ H).
Defined.

Lemma select_position_returns_iff_witness :
  (exists sel, select_position [[-3; 0]; [-1; 0]; [-5; 5]]%Z None [2] = Ok sel) /\
  select_position [[-3; 0]]%Z (Some [[(0, 1)]]) [] = Raise IndexError /\
  select_position [] None [] = Raise ValueError.
Proof.
  split; [|split].
  - apply (proj1 (select_position_returns_iff [[-3; 0]; [-1; 0]; [-5; 5]]%Z None [2])).
    split; [discriminate|].
    intros k [Hk|[]]. apply list_elem_of_singleton in Hk as ->. simpl. lia.
  - apply (proj1 (proj2 (select_position_returns_iff [[-3; 0]]%Z (Some [[(0, 1)]]) []))).
    exists 1. split; [|simpl; lia].
    right. simpl. apply elem_of_cons. right. apply elem_of_cons. left. reflexivity.
  - apply (proj2 (proj2 (select_position_returns_iff [] None []))); [reflexivity|].
    intros k [Hk|[]]. inversion Hk.
Defined.

Lemma attack_instance_tokens_witness :
  attack_instance (P := demo_classifier) Untargeted [] default_ignore_tokens None None
    demo_instance demo_world =
    (Some (Ok (flipped_state demo_start 0 "bad", None)),
     {| token_embedding := Some demo_embedding;
        trace := [EvGradients ["good"; "film"; "."]; EvSetToken 0 "bad";
                  EvGradients ["bad"; "film"; "."]]%string |}) /\
  length (tokens (current_instance (flipped_state demo_start 0 "bad"))) = 3 /\
  tokens (current_instance (flipped_state demo_start 0 "bad")) !! 2 = Some "."%string.
Proof.
  assert (H : attack_instance (P := demo_classifier) Untargeted [] default_ignore_tokens
                None None demo_instance demo_world =
              (Some (Ok (flipped_state demo_start 0 "bad", None)),
               {| token_embedding := Some demo_embedding;
                  trace := [EvGradients ["good"; "film"; "."]; EvSetToken 0 "bad";
                            EvGradients ["bad"; "film"; "."]]%string |}))
    by (vm_compute; reflexivity).
  split; [exact H|].
  destruct (attack_instance_tokens (P := demo_classifier) _ _ _ _ _ _ _ _ _ _ H)
    as (Hlen & _ & _ & _ & Hignored).
  split; [exact Hlen|].
  apply (Hignored eq_refl 2 "."%string); [reflexivity|].
  apply list_elem_of_In. simpl. tauto.
Defined.

Lemma attack_instance_gradient_calls_witness :
  attack_instance (P := demo_classifier) Untargeted [] default_ignore_tokens None None
    demo_instance demo_world =
    (Some (Ok (flipped_state demo_start 0 "bad", None)),
     {| token_embedding := Some demo_embedding;
        trace := [EvGradients ["good"; "film"; "."]; EvSetToken 0 "bad";
                  EvGradients ["bad"; "film"; "."]]%string |}) /\
  exists evs,
    [EvGradients ["good"; "film"; "."]; EvSetToken 0 "bad";
     EvGradients ["bad"; "film"; "."]]%string = trace demo_world ++ evs /\
    gradient_calls evs = S (flips evs) /\
    gradient_calls evs <= S (length (tokens demo_instance)) /\
    head evs = Some (EvGradients (tokens demo_instance)) /\
    list.last evs =
      Some (EvGradients (tokens (current_instance (flipped_state demo_start 0 "bad")))).
Proof.
  assert (H : attack_instance (P := demo_classifier) Untargeted [] default_ignore_tokens
                None None demo_instance demo_world =
              (Some (Ok (flipped_state demo_start 0 "bad", None)),
               {| token_embedding := Some demo_embedding;
                  trace := [EvGradients ["good"; "film"; "."]; EvSetToken 0 "bad";
                            EvGradients ["bad"; "film"; "."]]%string |}))
    by (vm_compute; reflexivity).
  split; [exact H|].
  exact (attack_instance_gradient_calls (P := demo_classifier) _ _ _ _ _ _ _ _ _ _ H).
Defined.

Lemma attack_loop_exit_reason_witness :
  (attack_loop (P := demo_classifier) 4 Untargeted 1 None demo_start demo_world =
     (Some (Ok (flipped_state demo_start 0 "bad", StoppedChanged)),
      flipped_world demo_world demo_start 0 "bad") /\
   exists labeled,
     predictions_to_labeled_instances (Predictor := demo_classifier)
       (current_instance (flipped_state demo_start 0 "bad"))
       (outputs (flipped_state demo_start 0 "bad")) !! 0 = Some labeled /\
     instance_has_changed (Predictor := demo_classifier) labeled 1 = true) /\
  (attack_loop (P := demo_coref) 5 Untargeted tt (Some (outputs coref_start)) coref_start
     coref_world =
     (Some (Ok (flipped_state (flipped_state coref_start 1 "left") 3 "left",
                StoppedExhausted)),
      flipped_world (flipped_world coref_world coref_start 1 "left")
        (flipped_state coref_start 1 "left") 3 "left") /\
   forall k, k < 4 ->
     k ∈ [1; 3] \/ covered (Some [[(0, 0); (2, 2)]]) k).
Proof.
  split.
  - assert (H : attack_loop (P := demo_classifier) 4 Untargeted 1 None demo_start
                  demo_world =
                (Some (Ok (flipped_state demo_start 0 "bad", StoppedChanged)),
                 flipped_world demo_world demo_start 0 "bad"))
      by (vm_compute; reflexivity).
    split; [exact H|].
    exact (attack_loop_exit_reason (P := demo_classifier) _ _ _ _ _ _ _ _ _ H).
  - assert (H : attack_loop (P := demo_coref) 5 Untargeted tt (Some (outputs coref_start))
                  coref_start coref_world =
                (Some (Ok (flipped_state (flipped_state coref_start 1 "left") 3 "left",
                           StoppedExhausted)),
                 flipped_world (flipped_world coref_world coref_start 1 "left")
                   (flipped_state coref_start 1 "left") 3 "left"))
      by (vm_compute; reflexivity).
    split; [exact H|].
    exact (proj2 (attack_loop_exit_reason (P := demo_coref) _ _ _ _ _ _ _ _ _ H)).
Defined.

Lemma attack_final_per_instance_witness :
  attack_from_json (P := demo_classifier) demo_two_sentences None demo_world =
    (Some (Ok demo_two_result), demo_two_world) /\
  length (final demo_two_result)
    <= length (json_to_labeled_instances (Predictor := demo_classifier) demo_two_sentences) /\
  Forall2 (fun toks (inst : Instance nat) => length toks = length (tokens inst))
    (final demo_two_result)
    (take (length (final demo_two_result))
       (json_to_labeled_instances (Predictor := demo_classifier) demo_two_sentences)).
Proof.
  assert (H : attack_from_json (P := demo_classifier) demo_two_sentences None demo_world =
              (Some (Ok demo_two_result), demo_two_world))
    by (vm_compute; reflexivity).
  split; [exact H|].
  destruct (proj1 (@attack_final_per_instance demo_classifier) _ _ _ _ _ H)
    as (Hle & Hall & _).
  split; [exact Hle | exact Hall].
Defined.

Lemma attack_without_instances_raises_witness :
  json_to_labeled_instances (Predictor := demo_classifier) [] = [] /\
  token_embedding demo_world = Some demo_embedding /\
  attack_from_json (P := demo_classifier) [] None demo_world
    = (Some (Raise IndexError), demo_world).
Proof.
  assert (H1 : json_to_labeled_instances (Predictor := demo_classifier) [] = [])
    by reflexivity.
  assert (H2 : token_embedding demo_world = Some demo_embedding) by reflexivity.
  split; [exact H1|]. split; [exact H2|].
  exact (proj1 (@attack_without_instances_raises demo_classifier) [] None demo_world
           demo_embedding H1 H2).
Defined.



Lemma attack_instance_without_snapshot_witness :
  clusters (get_gradients (Predictor := demo_classifier) demo_instance).2 = None /\
  attack_instance (P := demo_classifier) Untargeted [] default_ignore_tokens None None
    demo_instance demo_world =
    (Some (Ok (flipped_state demo_start 0 "bad", None)),
     {| token_embedding := Some demo_embedding;
        trace := [EvGradients ["good"; "film"; "."]; EvSetToken 0 "bad";
                  EvGradients ["bad"; "film"; "."]]%string |}) /\
  clusters (outputs (flipped_state demo_start 0 "bad")) = None.
Proof.
  assert (H1 : clusters (get_gradients (Predictor := demo_classifier) demo_instance).2
               = None) by reflexivity.
  assert (H : attack_instance (P := demo_classifier) Untargeted [] default_ignore_tokens
                None None demo_instance demo_world =
              (Some (Ok (flipped_state demo_start 0 "bad", None)),
               {| token_embedding := Some demo_embedding;
                  trace := [EvGradients ["good"; "film"; "."]; EvSetToken 0 "bad";
                            EvGradients ["bad"; "film"; "."]]%string |}))
    by (vm_compute; reflexivity).
  split; [exact H1|]. split; [exact H|].
  exact (proj2 (attack_instance_without_snapshot (P := demo_classifier)
                  _ _ _ _ _ _ _ _ _ H1 H)).
Defined.
